(** * searchengine.py: an inverted index and its conjunctive queries

    A shallow embedding of [create_index], [make_list_of_words],
    [clean_word], [add_term_to_index], [search] and [find_intersection],
    and of [do_searches] and [textfiles_in_dir], which call them.

    Python objects are mutable and passed by reference.  The embedding keeps
    that: a [store] holds the list objects by address together with the two
    dictionaries [index] and [file_titles] that the caller hands to
    [create_index] and [search]; [index] maps a term to the address of its
    list of file names.  Statements are computations in a state and exception
    monad [M]; a raised exception keeps the mutations made before it.

    A [str] is modelled by a [string] whose characters are the code points
    0 to 255; a text file is modelled by its decoded content, after the
    translation of line endings to a single line feed that [open] performs
    in text mode. *)

From Stdlib Require Import Ascii String.
From stdpp Require Import base decidable option list strings gmap pretty.

Set Warnings "-clear-no-such-hyp".

Local Open Scope string_scope.
Local Open Scope list_scope.
Local Open Scope nat_scope.

(** ** Strings *)

Module Str.

(** [str.isspace] on one character: TAB..CR, FS..US, space, NEL, NBSP. *)
Definition isspace (c : ascii) : bool :=
  let n := nat_of_ascii c in
  ((9 <=? n) && (n <=? 13)) || ((28 <=? n) && (n <=? 32))
  || (n =? 133) || (n =? 160).

(** Membership in [string.punctuation], the 32 ASCII punctuation marks:
    [!] to [/], [:] to [@], the left bracket to the backquote, and the
    left brace to [~]. *)
Definition ispunct (c : ascii) : bool :=
  let n := nat_of_ascii c in
  ((33 <=? n) && (n <=? 47)) || ((58 <=? n) && (n <=? 64))
  || ((91 <=? n) && (n <=? 96)) || ((123 <=? n) && (n <=? 126)).

(** [str.lower] on one character: [A]..[Z], and the capital letters of the
    Latin-1 supplement (0xC0..0xDE but the multiplication sign 0xD7). *)
Definition lower_char (c : ascii) : ascii :=
  let n := nat_of_ascii c in
  if ((65 <=? n) && (n <=? 90))
     || ((192 <=? n) && (n <=? 222) && negb (n =? 215))
  then ascii_of_nat (n + 32) else c.

Fixpoint lstrip (p : ascii -> bool) (s : list ascii) : list ascii :=
  match s with
  | [] => []
  | c :: s' => if p c then lstrip p s' else s
  end.

(** [s.strip(chars)]: drop the characters satisfying [p] at both ends. *)
Definition strip_with (p : ascii -> bool) (s : list ascii) : list ascii :=
  rev (lstrip p (rev (lstrip p s))).

(** [cur] is the word being read, last character first. *)
Fixpoint split_go (cur s : list ascii) : list (list ascii) :=
  match s with
  | [] => match cur with [] => [] | _ => [rev cur] end
  | c :: s' =>
      if isspace c
      then match cur with
           | [] => split_go [] s'
           | _ => rev cur :: split_go [] s'
           end
      else split_go (c :: cur) s'
  end.

(** Iterating a text file: each line keeps its line feed; a last line
    without one is yielded as it is; an empty file yields nothing. *)
Fixpoint lines_go (cur s : list ascii) : list (list ascii) :=
  match s with
  | [] => match cur with [] => [] | _ => [rev cur] end
  | c :: s' =>
      if (nat_of_ascii c =? 10)
      then rev (c :: cur) :: lines_go [] s'
      else lines_go (c :: cur) s'
  end.

Definition of_chars : list ascii -> string := string_of_list_ascii.
Definition chars : string -> list ascii := list_ascii_of_string.

(** [s.strip()] *)
Definition strip (s : string) : string :=
  of_chars (strip_with isspace (chars s)).

(** [s.strip(string.punctuation)] *)
Definition strip_punctuation (s : string) : string :=
  of_chars (strip_with ispunct (chars s)).

(** [s.lower()] *)
Definition lower (s : string) : string :=
  of_chars (lower_char <$> chars s).

(** [s.split()]: the maximal runs of characters that are not whitespace. *)
Definition split (s : string) : list string :=
  of_chars <$> split_go [] (chars s).

(** [s[:-1]]: all but the last character; the empty string stays empty. *)
Definition drop_last (s : string) : string :=
  of_chars (removelast (chars s)).

(** The lines a file object yields for the content [s]. *)
Definition lines (s : string) : list string :=
  of_chars <$> lines_go [] (chars s).

End Str.

(** ** The store and the monad *)

Abbreviation loc := nat.

Record store := Store {
  lists : list (list string);        (* the list objects, by address *)
  index : gmap string loc;           (* term -> its list of file names *)
  file_titles : gmap string string   (* file name -> title *)
}.

Definition set_lists (f : list (list string) -> list (list string))
    (s : store) : store :=
  Store (f (lists s)) (index s) (file_titles s).

Definition set_index (f : gmap string loc -> gmap string loc)
    (s : store) : store :=
  Store (lists s) (f (index s)) (file_titles s).

Definition set_file_titles (f : gmap string string -> gmap string string)
    (s : store) : store :=
  Store (lists s) (index s) (f (file_titles s)).

(** The content of the list at address [l]; no Python reference denotes an
    address that is not allocated, and such an address reads as empty. *)
Definition deref (s : store) (l : loc) : list string :=
  default [] (lists s !! l).

Inductive exn := IndexError | KeyError | StopIteration | OSError.

Inductive outcome (A : Type) :=
  | Return (a : A)
  | Raise (e : exn).
Arguments Return {A} a.
Arguments Raise {A} e.

Definition M (A : Type) : Type := store -> outcome A * store.

Definition ret {A} (a : A) : M A := fun s => (Return a, s).

Definition raise {A} (e : exn) : M A := fun s => (Raise e, s).

Definition bind {A B} (m : M A) (k : A -> M B) : M B :=
  fun s =>
    match m s with
    | (Return a, s') => k a s'
    | (Raise e, s') => (Raise e, s')
    end.

Notation "x <- c1 ;; c2" := (bind c1 (fun x => c2))
  (at level 20, c1 at level 99, c2 at level 200, only parsing).
Notation "c1 ;; c2" := (bind c1 (fun _ => c2))
  (at level 100, c2 at level 200, right associativity, only parsing).

(** [for x in xs: body x] over a sequence that the body does not mutate. *)
Fixpoint for_each {A} (xs : list A) (body : A -> M unit) : M unit :=
  match xs with
  | [] => ret tt
  | x :: xs' => body x ;; for_each xs' body
  end.

(** A [for] loop whose body rebinds a local variable, [v]. *)
Fixpoint for_fold {A V} (xs : list A) (v : V) (body : V -> A -> M V) : M V :=
  match xs with
  | [] => ret v
  | x :: xs' => v' <- body v x ;; for_fold xs' v' body
  end.

(** *** List objects *)

(** [[]]: a new, empty list object. *)
Definition new_list : M loc :=
  fun s => (Return (length (lists s)), set_lists (fun h => h ++ [[]]) s).

Definition list_read (l : loc) : M (list string) :=
  fun s => (Return (deref s l), s).

(** [len(l)] *)
Definition list_len (l : loc) : M nat :=
  fun s => (Return (length (deref s l)), s).

(** [l[i]] *)
Definition list_getitem (l : loc) (i : nat) : M string :=
  fun s =>
    match deref s l !! i with
    | Some x => (Return x, s)
    | None => (Raise IndexError, s)
    end.

(** [l.append(x)] *)
Definition list_append (l : loc) (x : string) : M unit :=
  fun s => (Return tt, set_lists (alter (fun v => v ++ [x]) l) s).

(** [l += l2], which extends the object [l] in place. *)
Definition list_extend (l l2 : loc) : M unit :=
  fun s => (Return tt, set_lists (alter (fun v => v ++ deref s l2) l) s).

(** [l.pop()] *)
Definition list_pop (l : loc) : M string :=
  fun s =>
    match last (deref s l) with
    | Some x => (Return x, set_lists (alter (fun v => removelast v) l) s)
    | None => (Raise IndexError, s)
    end.

(** *** The two dictionaries *)

(** [term in index] *)
Definition index_contains (term : string) : M bool :=
  fun s => (Return (bool_decide (is_Some (index s !! term))), s).

(** [index[term]] *)
Definition index_getitem (term : string) : M loc :=
  fun s =>
    match index s !! term with
    | Some l => (Return l, s)
    | None => (Raise KeyError, s)
    end.

(** [index[term] = l] *)
Definition index_setitem (term : string) (l : loc) : M unit :=
  fun s => (Return tt, set_index (insert term l) s).

(** [key in file_titles] *)
Definition file_titles_contains (key : string) : M bool :=
  fun s => (Return (bool_decide (is_Some (file_titles s !! key))), s).

(** [file_titles[file] = title] *)
Definition file_titles_setitem (file title : string) : M unit :=
  fun s => (Return tt, set_file_titles (insert file title) s).

(** ** The program *)

(** A file system: the text content of each file that can be opened. *)
Abbreviation filesystem := (gmap string string).

(** [open(file)], then the lines the file object yields. *)
Definition open (fs : filesystem) (file : string) : M (list string) :=
  match fs !! file with
  | Some content => ret (Str.lines content)
  | None => raise OSError
  end.

Definition make_list_of_words (line : string) : list string :=
  let line := Str.strip line in
  let raw := Str.split line in
  raw.

Definition clean_word (word : string) : string :=
  let word := Str.strip word in
  let new_word := Str.lower word in
  let new_word_2 := Str.strip_punctuation new_word in
  new_word_2.

Definition add_term_to_index (term file : string) : M unit :=
  present <- index_contains term ;;
  if negb present then
    l <- new_list ;;
    index_setitem term l ;;
    l' <- index_getitem term ;;
    list_append l' file
  else
    l <- index_getitem term ;;
    v <- list_read l ;;
    if bool_decide (file ∈ v) then ret tt
    else
      l' <- index_getitem term ;;
      list_append l' file.

Definition create_index (fs : filesystem) (filenames : list string) : M unit :=
  for_each filenames (fun file =>
    f <- open fs file ;;
    match f with
    | [] => raise StopIteration            (* next(f) on an empty file *)
    | first :: f =>
        let title := Str.drop_last first in
        let words_in_title := make_list_of_words title in
        present <- file_titles_contains title ;;
        (if negb present then file_titles_setitem file title else ret tt) ;;
        for_each words_in_title (fun word =>
          let new_lower_word := clean_word word in
          if bool_decide (new_lower_word <> EmptyString)
          then add_term_to_index new_lower_word file
          else ret tt) ;;
        for_each f (fun line =>
          let raw_terms := make_list_of_words line in
          for_each raw_terms (fun word =>
            let term := clean_word word in
            if bool_decide (term <> EmptyString)
            then add_term_to_index term file
            else ret tt))
    end).

Definition find_intersection (list1 list2 : loc) : M loc :=
  intersection <- new_list ;;
  elems <- list_read list1 ;;
  for_each elems (fun elem =>
    n <- list_len list2 ;;
    for_each (seq 0 n) (fun i =>
      elem_2 <- list_getitem list2 i ;;
      if bool_decide (elem = elem_2) then
        v <- list_read intersection ;;
        if bool_decide (elem ∈ v) then ret tt
        else list_append intersection elem
      else ret tt)) ;;
  ret intersection.

Definition search (query : string) : M loc :=
  let words := Str.split query in
  list_of_files <- new_list ;;
  first_term <- match words !! 0 with
                | Some w => ret w
                | None => raise IndexError
                end ;;
  (if length words =? 1 then
     for_each words (fun word =>
       present <- index_contains word ;;
       if present then
         l <- index_getitem word ;;
         list_extend list_of_files l
       else ret tt)
   else ret tt) ;;
  if 1 <? length words then
    present <- index_contains first_term ;;
    (if present then
       l <- index_getitem first_term ;;
       list_extend list_of_files l
     else ret tt) ;;
    for_fold (seq 0 (length words - 1)) list_of_files
      (fun list_of_files i =>
         next_term <- match words !! (i + 1) with
                      | Some w => ret w
                      | None => raise IndexError
                      end ;;
         present <- index_contains next_term ;;
         if negb present then
           n <- list_len list_of_files ;;
           for_each (seq 0 n) (fun j => list_pop list_of_files ;; ret tt) ;;
           ret list_of_files
         else
           list2 <- index_getitem next_term ;;
           find_intersection list_of_files list2)
  else ret list_of_files.

(** The store of a fresh process: no list object, two empty dictionaries. *)
Definition empty_store : store := Store [] ∅ ∅.

(** * Specification *)

(** ** Properties of the store *)

(** The store [s] with one more list object, of content [v]. *)
Definition with_new_list (s : store) (v : list string) : store :=
  set_lists (fun h => h ++ [v]) s.

(** Every list that [index] refers to is allocated. *)
Definition wf_store (s : store) : Prop :=
  map_Forall (fun _ l => l < length (lists s)) (index s).

(** The entry of [term] in [index], as a content; [None] when absent. *)
Definition entry (s : store) (term : string) : option (list string) :=
  deref s <$> index s !! term.

(** No term of [index] lists a file name twice. *)
Definition index_dup_free (s : store) : Prop :=
  map_Forall (fun _ l => NoDup (deref s l)) (index s).

(** What [search] leaves untouched of the store [s0] it starts from: the two
    dictionaries and every list object that exists in [s0]. *)
Definition frame (s0 s : store) : Prop :=
  index s = index s0 /\ file_titles s = file_titles s0 /\
  take (length (lists s0)) (lists s) = lists s0.

(** From [s] to [s'] neither dictionary has changed, and no list object at
    an address below [n] has. *)
Definition untouched (n : nat) (s s' : store) : Prop :=
  index s' = index s /\ file_titles s' = file_titles s /\
  take n (lists s') = take n (lists s) /\ n <= length (lists s').

(** Run from a store with [n] list objects or more, the statement [m] writes
    to nothing that [untouched] speaks of, whether it returns or raises, and
    what it returns satisfies [P]. *)
Definition above (n : nat) {A} (m : M A) (P : A -> Prop) : Prop :=
  forall s, n <= length (lists s) ->
    untouched n s (m s).2 /\ forall a, (m s).1 = Return a -> P a.

(** The statement [m] keeps the property [I] of the store, whether it returns
    or raises. *)
Definition preserves {A} (I : store -> Prop) (m : M A) : Prop :=
  forall s, I s -> I (m s).2.

(** [file] is in the list of [term]. *)
Definition has (s : store) (term file : string) : Prop :=
  exists l, index s !! term = Some l /\ file ∈ deref s l.

(** The guard of [file_titles[file] = title] is closed, or the assignment
    has been made. *)
Definition titled (s : store) (file title : string) : Prop :=
  is_Some (file_titles s !! title) \/ file_titles s !! file = Some title.

(** Every word of [words] that cleans to a term has [file] under that term. *)
Definition words_indexed (s : store) (file : string) (words : list string)
    : Prop :=
  forall word, word ∈ words -> clean_word word <> EmptyString ->
    has s (clean_word word) file.

(** Nothing is left to do for [file], whose lines are [first :: rest]. *)
Definition settled (s : store) (file first : string) (rest : list string)
    : Prop :=
  titled s file (Str.drop_last first) /\
  words_indexed s file (make_list_of_words (Str.drop_last first)) /\
  forall line, line ∈ rest -> words_indexed s file (make_list_of_words line).

(** From [s] to [s'] the index has only grown; the titles are the same. *)
Definition index_grows (s s' : store) : Prop :=
  wf_store s' /\ file_titles s' = file_titles s /\
  forall term file, has s term file -> has s' term file.

(** The first line and the further lines that [create_index] reads from
    [file]; [None] when [open] or [next] raises. *)
Definition document (fs : filesystem) (file : string)
    : option (string * list string) :=
  match fs !! file with
  | Some content =>
      match Str.lines content with
      | [] => None
      | first :: rest => Some (first, rest)
      end
  | None => None
  end.

(** From [s] to [s'] the index has only grown, and no file of [fs] that had
    nothing left to do for its title has lost that. *)
Definition extends (fs : filesystem) (s s' : store) : Prop :=
  wf_store s' /\
  (forall term file, has s term file -> has s' term file) /\
  (forall file first rest, document fs file = Some (first, rest) ->
     titled s file (Str.drop_last first) ->
     titled s' file (Str.drop_last first)).

(** ** What the loops compute *)

(** One turn of the inner loop, on the content [acc] of [intersection]. *)
Definition intersection_step (elem : string) (acc : list string)
    (elem_2 : string) : list string :=
  if decide (elem = elem_2)
  then if decide (elem ∈ acc) then acc else acc ++ [elem]
  else acc.

(** The content of [intersection] after the loops over [a] and [b]. *)
Definition intersection_from (acc a b : list string) : list string :=
  foldl (fun acc elem => foldl (intersection_step elem) acc b) acc a.

Definition intersection_of (a b : list string) : list string :=
  intersection_from [] a b.

(** One turn of the loop over the further terms, on the content [acc] of
    [list_of_files]. *)
Definition search_step (s : store) (acc : list string) (term : string)
    : list string :=
  match entry s term with
  | Some v => intersection_of acc v
  | None => []
  end.

(** The content of the list that [search] returns for the terms [words]. *)
Definition search_content (s : store) (words : list string) : list string :=
  match words with
  | [] => []
  | first_term :: rest =>
      foldl (search_step s) (default [] (entry s first_term)) rest
  end.

(** ** Stores and file systems of the examples *)

(** The line feed. *)
Definition LF : string := String (ascii_of_nat 10) EmptyString.

(** A store for the examples: two terms over two files. *)
Definition two_term_store : store :=
  Store [["test1.txt"]; ["test1.txt"; "test2.txt"]]
        (<["apple" := 0]> (<["ball" := 1]> ∅)) ∅.

(** The two files of the doctests. *)
Definition doctest_fs : filesystem :=
  <["test1.txt" := "File 1 Title" +:+ LF +:+ "apple ball carrot" +:+ LF]>
  (<["test2.txt" := "File 2 Title" +:+ LF +:+ "ball carrot dog" +:+ LF]> ∅).

(** One file, before and after its first line is rewritten. *)
Definition old_fs : filesystem :=
  <["a.txt" := "Old Title" +:+ LF +:+ "apple" +:+ LF]> ∅.

Definition new_fs : filesystem :=
  <["a.txt" := "New Title" +:+ LF +:+ "apple" +:+ LF]> ∅.

(** One file of a single line that no line feed ends. *)
Definition unterminated_fs : filesystem := <["a.txt" := "Title"]> ∅.

(** Two files, the second one titled with the name of the first. *)
Definition clash_fs : filesystem :=
  <["x" := "hello" +:+ LF]> (<["y" := "x" +:+ LF]> ∅).

(** ** Words, terms and what the index holds *)

(** The list is empty or does not start with a character that [p] strips. *)
Definition clean_head (p : ascii -> bool) (s : list ascii) : Prop :=
  match s with
  | [] => True
  | c :: _ => p c = false
  end.

(** A word: not empty, and without whitespace. *)
Definition is_word (w : list ascii) : Prop :=
  w <> [] /\ Forall (fun c => Str.isspace c = false) w.

(** A string without whitespace. *)
Definition no_space (w : string) : Prop :=
  Forall (fun c => Str.isspace c = false) (Str.chars w).

(** [term] is what [clean_word] makes of a word of [file], in the lines as
    [create_index] reads them: the first line without its last character,
    then the further lines. *)
Definition occurs (fs : filesystem) (term file : string) : Prop :=
  exists first rest line word,
    document fs file = Some (first, rest) /\
    line ∈ Str.drop_last first :: rest /\
    word ∈ make_list_of_words line /\
    clean_word word = term /\ term <> EmptyString.

(** No two terms of [index] share their list object. *)
Definition index_inj (s : store) : Prop :=
  forall term1 term2 l,
    index s !! term1 = Some l -> index s !! term2 = Some l -> term1 = term2.

(** What [index] says is true of the files [filenames] of [fs]. *)
Definition index_sound (fs : filesystem) (filenames : list string)
    (s : store) : Prop :=
  wf_store s /\ index_inj s /\
  forall term file, has s term file -> file ∈ filenames /\ occurs fs term file.

(** Every key of [index] is a term as [clean_word] leaves it, and not the
    empty string. *)
Definition index_keys_clean (s : store) : Prop :=
  map_Forall (fun term _ => term <> EmptyString /\ clean_word term = term)
             (index s).

(** Every term of [index] lists a file at least. *)
Definition index_lists_nonempty (s : store) : Prop :=
  map_Forall (fun _ l => deref s l <> []) (index s).

(** Every title of [file_titles] is the first line of its file in [fs],
    without its last character. *)
Definition titles_sound (fs : filesystem) (s : store) : Prop :=
  forall file title, file_titles s !! file = Some title ->
    exists first rest,
      document fs file = Some (first, rest) /\ title = Str.drop_last first.


(** * The rest of the program *)

(** ** [textfiles_in_dir] *)

(** [s.endswith(suffix)] *)
Definition str_endswith (s suffix : string) : bool :=
  bool_decide (Str.chars suffix `suffix_of` Str.chars s).

(** [s.startswith(prefix)] *)
Definition str_startswith (s prefix : string) : bool :=
  bool_decide (Str.chars prefix `prefix_of` Str.chars s).

(** [os.path.join(a, b)], as [posixpath] defines it. *)
Definition path_join (a b : string) : string :=
  if str_startswith b "/" then b
  else if bool_decide (a = EmptyString) || str_endswith a "/" then a +:+ b
  else a +:+ "/" +:+ b.

(** [listdir] stands for [os.listdir]: the entries of a directory, or [None]
    where it raises. *)
Definition textfiles_in_dir (listdir : string -> option (list string))
    (directory : string) : outcome (list string) :=
  match listdir directory with
  | None => Raise OSError
  | Some entries =>
      Return (foldl (fun filenames filename =>
                       if str_endswith filename ".txt"
                       then filenames ++ [path_join directory filename]
                       else filenames) [] entries)
  end.

(** ** [do_searches] *)

(** What [do_searches] can raise: an exception of the statements on the
    store, or [EOFError] from [input]. *)
Inductive io_exn := Exn (e : exn) | EOFError.

Inductive io_outcome (A : Type) :=
  | Returned (a : A)
  | Raised (e : io_exn).
Arguments Returned {A} a.
Arguments Raised {A} e.

(** Statements that also write to the standard output: the state is the
    store with the texts written so far. *)
Definition IO (A : Type) : Type :=
  store * list string -> io_outcome A * (store * list string).

Definition io_ret {A} (a : A) : IO A := fun w => (Returned a, w).

Definition io_raise {A} (e : io_exn) : IO A := fun w => (Raised e, w).

Definition io_bind {A B} (m : IO A) (k : A -> IO B) : IO B :=
  fun w =>
    match m w with
    | (Returned a, w') => k a w'
    | (Raised e, w') => (Raised e, w')
    end.

Notation "x <- c1 ;;; c2" := (io_bind c1 (fun x => c2))
  (at level 20, c1 at level 99, c2 at level 200, only parsing).
Notation "c1 ;;; c2" := (io_bind c1 (fun _ => c2))
  (at level 100, c2 at level 200, right associativity, only parsing).

(** A statement on the store, run where output is written too. *)
Definition lift {A} (m : M A) : IO A :=
  fun w =>
    match m w.1 with
    | (Return a, s') => (Returned a, (s', w.2))
    | (Raise e, s') => (Raised (Exn e), (s', w.2))
    end.

(** Writing [text] to the standard output. *)
Definition write (text : string) : IO unit :=
  fun w => (Returned tt, (w.1, w.2 ++ [text])).

(** [print(line)] *)
Definition print (line : string) : IO unit := write (line +:+ LF).

Fixpoint io_for_each {A} (xs : list A) (body : A -> IO unit) : IO unit :=
  match xs with
  | [] => io_ret tt
  | x :: xs' => body x ;;; io_for_each xs' body
  end.

(** [file_titles[file]] *)
Definition file_titles_getitem (file : string) : M string :=
  fun s =>
    match file_titles s !! file with
    | Some title => (Return title, s)
    | None => (Raise KeyError, s)
    end.

(** [if results:] *)
Definition list_truth (l : loc) : M bool :=
  fun s => (Return (negb (bool_decide (deref s l = []))), s).

Definition prompt : string := "Query (empty query to stop): ".

(** One turn of [while True], after [input] has returned [line]; [again] is
    the loop from its next turn on, and [break] leaves it out. *)
Definition query_round (line : string) (again : IO unit) : IO unit :=
  let query := line in
  let query := Str.lower query in
  if bool_decide (query = EmptyString) then io_ret tt
  else
    results <- lift (search query) ;;;
    print ("Results for query '" +:+ query +:+ "':") ;;;
    nonempty <- lift (list_truth results) ;;;
    (if nonempty then
       n <- lift (list_len results) ;;;
       io_for_each (seq 0 n) (fun i =>
         file <- lift (list_getitem results i) ;;;
         title <- lift (file_titles_getitem file) ;;;
         file' <- lift (list_getitem results i) ;;;
         print (pretty (i + 1) +:+ ".  Title: " +:+ title
                +:+ ",  File: " +:+ file'))
     else print "No results match that query.") ;;;
    again.

(** [typed] holds the lines that [input] will return, one at each call; at
    the end of the input it raises [EOFError]. *)
Fixpoint do_searches (typed : list string) : IO unit :=
  match typed with
  | [] => write prompt ;;; io_raise EOFError
  | line :: typed' => write prompt ;;; query_round line (do_searches typed')
  end.

(** ** Properties of [do_searches] *)

(** Run from a store with [n] list objects or more, the statement [m]
    writes to nothing of the store that [untouched] speaks of. *)
Definition io_above (n : nat) {A} (m : IO A) : Prop :=
  forall s out, n <= length (lists s) -> untouched n s (m (s, out)).2.1.

(** Every file that [index] lists has a title. *)
Definition titles_cover (s : store) : Prop :=
  map_Forall (fun _ l =>
    Forall (fun file => is_Some (file_titles s !! file)) (deref s l))
    (index s).

(** The store that the doctests build. *)
Definition doctest_store : store :=
  (create_index doctest_fs ["test1.txt"; "test2.txt"] empty_store).2.

(** The lines that [do_searches] prints for the results [files], numbered
    from [k + 1]. *)
Fixpoint result_lines (s : store) (k : nat) (files : list string)
    : list string :=
  match files with
  | [] => []
  | file :: files' =>
      ((pretty (k + 1) +:+ ".  Title: "
        +:+ default EmptyString (file_titles s !! file)
        +:+ ",  File: " +:+ file) +:+ LF)
      :: result_lines s (S k) files'
  end.

(** What a turn of [do_searches] prints after the prompt, for the query
    [query] with the results [files]. *)
Definition round_output (s : store) (query : string) (files : list string)
    : list string :=
  (("Results for query '" +:+ query +:+ "':") +:+ LF) ::
  match files with
  | [] => ["No results match that query." +:+ LF]
  | _ :: _ => result_lines s 0 files
  end.

(** * Proofs *)

(** ** Lemmas on the loops of [find_intersection] *)

Section Intersection.

Lemma inner_loop_mem elem b acc :
  foldl (intersection_step elem) acc b =
    if decide (elem ∈ b)
    then if decide (elem ∈ acc) then acc else acc ++ [elem]
    else acc.
Proof.
  revert acc. induction b as [|y b IH]; intros acc; cbn [foldl].
  - rewrite decide_False; [done | apply not_elem_of_nil].
  - rewrite IH. unfold intersection_step.
    repeat case_decide; subst; try done; set_solver.
Qed.

Lemma intersection_from_cons acc x a b :
  intersection_from acc (x :: a) b =
    intersection_from
      (if decide (x ∈ b)
       then if decide (x ∈ acc) then acc else acc ++ [x]
       else acc) a b.
Proof. unfold intersection_from. cbn [foldl]. by rewrite inner_loop_mem. Qed.

Lemma intersection_from_elem acc a b x :
  x ∈ intersection_from acc a b <-> x ∈ acc \/ (x ∈ a /\ x ∈ b).
Proof.
  revert acc. induction a as [|y a IH]; intros acc.
  - unfold intersection_from. cbn [foldl]. set_solver.
  - rewrite intersection_from_cons, IH.
    repeat case_decide; set_solver.
Qed.

Lemma intersection_from_NoDup acc a b :
  NoDup acc -> NoDup (intersection_from acc a b).
Proof.
  revert acc. induction a as [|y a IH]; intros acc Hacc; [done|].
  rewrite intersection_from_cons. apply IH.
  repeat case_decide; try done.
  apply NoDup_app. split_and!; [done | set_solver | apply NoDup_singleton].
Qed.

(** The loops only ever append, and what they append is taken from [a]
    from left to right. *)
Lemma intersection_from_sublist acc a b :
  exists r, intersection_from acc a b = acc ++ r /\ r `sublist_of` a.
Proof.
  revert acc. induction a as [|y a IH]; intros acc.
  - exists []. split; [by rewrite app_nil_r | done].
  - rewrite intersection_from_cons.
    destruct (decide (y ∈ b)); [destruct (decide (y ∈ acc))|].
    + destruct (IH acc) as (r & -> & Hr). exists r.
      split; [done | by apply sublist_cons].
    + destruct (IH (acc ++ [y])) as (r & -> & Hr). exists (y :: r).
      split; [by rewrite <- app_assoc | by apply sublist_skip].
    + destruct (IH acc) as (r & -> & Hr). exists r.
      split; [done | by apply sublist_cons].
Qed.

Lemma intersection_from_self acc a b :
  NoDup (acc ++ a) -> a ⊆ b -> intersection_from acc a b = acc ++ a.
Proof.
  revert acc. induction a as [|y a IH]; intros acc Hnd Hsub.
  - by rewrite app_nil_r.
  - rewrite intersection_from_cons.
    rewrite decide_True by set_solver.
    apply NoDup_app in Hnd as (Hacc & Hdisj & Ha).
    rewrite decide_False by (intros Hin; apply (Hdisj y Hin); left).
    rewrite IH; [by rewrite <- app_assoc | | set_solver].
    rewrite <- app_assoc. simpl.
    apply NoDup_app. split_and!; [done | exact Hdisj | exact Ha].
Qed.

End Intersection.

(** ** Running the statements *)

Section Run.

Context {A B : Type}.

Lemma bind_run (m : M A) (k : A -> M B) s :
  bind m k s =
    match m s with
    | (Return a, s') => k a s'
    | (Raise e, s') => (Raise e, s')
    end.
Proof. reflexivity. Qed.

Lemma ret_run (a : A) s : ret a s = (Return a, s).
Proof. reflexivity. Qed.

Lemma raise_run e s : raise (A := A) e s = (Raise e, s).
Proof. reflexivity. Qed.

Lemma for_each_cons (x : A) xs body :
  for_each (x :: xs) body = (body x ;; for_each xs body).
Proof. reflexivity. Qed.

End Run.

Lemma new_list_run s :
  new_list s = (Return (length (lists s)), set_lists (fun h => h ++ [[]]) s).
Proof. reflexivity. Qed.

Lemma list_read_run l s : list_read l s = (Return (deref s l), s).
Proof. reflexivity. Qed.

Lemma list_len_run l s : list_len l s = (Return (length (deref s l)), s).
Proof. reflexivity. Qed.

Lemma list_append_run l x s :
  list_append l x s = (Return tt, set_lists (alter (fun v => v ++ [x]) l) s).
Proof. reflexivity. Qed.

Lemma list_extend_run l l2 s :
  list_extend l l2 s =
    (Return tt, set_lists (alter (fun v => v ++ deref s l2) l) s).
Proof. reflexivity. Qed.

Lemma index_contains_run term s :
  index_contains term s =
    (Return (bool_decide (is_Some (index s !! term))), s).
Proof. reflexivity. Qed.

Lemma index_getitem_run term l s :
  index s !! term = Some l -> index_getitem term s = (Return l, s).
Proof. intros H. unfold index_getitem. by rewrite H. Qed.

Lemma index_setitem_run term l s :
  index_setitem term l s = (Return tt, set_index (insert term l) s).
Proof. reflexivity. Qed.

Lemma file_titles_contains_run key s :
  file_titles_contains key s =
    (Return (bool_decide (is_Some (file_titles s !! key))), s).
Proof. reflexivity. Qed.

Lemma file_titles_setitem_run file title s :
  file_titles_setitem file title s =
    (Return tt, set_file_titles (insert file title) s).
Proof. reflexivity. Qed.

(** Run the statements at the head of the goal, up to the first one that
    needs a lemma of its own. *)
Ltac mrun :=
  repeat (first
    [ rewrite bind_run | rewrite ret_run | rewrite raise_run
    | rewrite new_list_run | rewrite list_read_run | rewrite list_len_run
    | rewrite list_append_run | rewrite list_extend_run
    | rewrite index_contains_run | rewrite index_setitem_run
    | rewrite file_titles_contains_run | rewrite file_titles_setitem_run
    | erewrite index_getitem_run by eassumption ];
    cbv beta iota).

(** ** Running [find_intersection] *)

Section RunIntersection.

Lemma index_new_list s v : index (with_new_list s v) = index s.
Proof. reflexivity. Qed.

Lemma deref_new_list_old s v l :
  l < length (lists s) -> deref (with_new_list s v) l = deref s l.
Proof.
  intros Hl. unfold deref, with_new_list, set_lists. simpl.
  by rewrite lookup_app_l.
Qed.

Lemma deref_new_list_new s v :
  deref (with_new_list s v) (length (lists s)) = v.
Proof.
  unfold deref, with_new_list, set_lists. simpl.
  by rewrite list_lookup_middle.
Qed.

Lemma alter_new_list f s v :
  set_lists (alter f (length (lists s))) (with_new_list s v) =
  with_new_list s (f v).
Proof.
  unfold with_new_list, set_lists. simpl. f_equal.
  rewrite alter_app_r_alt by lia. by rewrite Nat.sub_diag.
Qed.

Lemma drop_head (b b' : list string) y k :
  drop k b = y :: b' -> b !! k = Some y /\ drop (S k) b = b'.
Proof.
  intros Hd.
  assert (b !! k = Some y) as Hk.
  { rewrite <- (Nat.add_0_r k), <- lookup_drop. by rewrite Hd. }
  split; [done|]. apply (drop_S _ _ _) in Hk. congruence.
Qed.

(** The inner loop, [for i in range(len(list2))], from its [k]-th turn. *)
Lemma find_intersection_inner s l2 elem b' : forall k acc,
  l2 < length (lists s) ->
  drop k (deref s l2) = b' ->
  for_each (seq k (length b')) (fun i =>
    elem_2 <- list_getitem l2 i ;;
    if bool_decide (elem = elem_2) then
      v <- list_read (length (lists s)) ;;
      if bool_decide (elem ∈ v) then ret tt
      else list_append (length (lists s)) elem
    else ret tt) (with_new_list s acc)
  = (Return tt, with_new_list s (foldl (intersection_step elem) acc b')).
Proof.
  induction b' as [|y b' IH]; intros k acc Hl Hd; [done|].
  apply drop_head in Hd as [Hk Hd].
  cbn [length seq for_each foldl]. unfold bind at 1.
  unfold bind at 1, list_getitem.
  rewrite deref_new_list_old by done. rewrite Hk.
  unfold intersection_step at 2.
  case_bool_decide as He.
  - rewrite decide_True by done.
    unfold bind, list_read. rewrite deref_new_list_new.
    case_bool_decide as Hin.
    + rewrite decide_True by done. by apply IH.
    + rewrite decide_False by done.
      unfold list_append. rewrite alter_new_list. by apply IH.
  - rewrite decide_False by done. by apply IH.
Qed.

(** The outer loop, [for elem in list1]. *)
Lemma find_intersection_outer s l2 a : forall acc,
  l2 < length (lists s) ->
  for_each a (fun elem =>
    n <- list_len l2 ;;
    for_each (seq 0 n) (fun i =>
      elem_2 <- list_getitem l2 i ;;
      if bool_decide (elem = elem_2) then
        v <- list_read (length (lists s)) ;;
        if bool_decide (elem ∈ v) then ret tt
        else list_append (length (lists s)) elem
      else ret tt)) (with_new_list s acc)
  = (Return tt, with_new_list s (intersection_from acc a (deref s l2))).
Proof.
  induction a as [|x a IH]; intros acc Hl; [done|].
  cbn [for_each]. unfold bind at 1. unfold bind at 1, list_len.
  rewrite deref_new_list_old by done.
  rewrite (find_intersection_inner s l2 x (deref s l2) 0 acc) by done.
  by apply IH.
Qed.

(** [find_intersection] allocates one list, writes to no other object, and
    leaves there what its loops compute from the two contents it reads. *)
Lemma find_intersection_run s list1 list2 :
  list1 < length (lists s) -> list2 < length (lists s) ->
  find_intersection list1 list2 s =
    (Return (length (lists s)),
     with_new_list s (intersection_of (deref s list1) (deref s list2))).
Proof.
  intros H1 H2. unfold find_intersection.
  unfold bind at 1, new_list. fold (with_new_list s []).
  unfold bind at 1, list_read at 1. rewrite deref_new_list_old by done.
  unfold bind at 1.
  by rewrite (find_intersection_outer s list2 (deref s list1) []).
Qed.

End RunIntersection.

(** ** Running [search] *)

Section RunSearch.

Lemma frame_refl s : frame s s.
Proof. unfold frame. split_and!; try done. by rewrite firstn_all. Qed.

Lemma frame_length s0 s : frame s0 s -> length (lists s0) <= length (lists s).
Proof.
  intros (_ & _ & Ht).
  destruct (decide (length (lists s0) <= length (lists s))); [done|].
  apply (f_equal length) in Ht. rewrite length_take in Ht. lia.
Qed.

Lemma frame_lookup s0 s l :
  frame s0 s -> l < length (lists s0) -> lists s !! l = lists s0 !! l.
Proof.
  intros (_ & _ & Ht) Hl. rewrite <- Ht. by rewrite lookup_take_lt.
Qed.

Lemma frame_deref s0 s l :
  frame s0 s -> l < length (lists s0) -> deref s l = deref s0 l.
Proof. intros Hf Hl. unfold deref. by rewrite (frame_lookup s0 s l). Qed.

Lemma frame_entry s0 s term :
  wf_store s0 -> frame s0 s -> entry s term = entry s0 term.
Proof.
  intros Hwf Hf. unfold entry. destruct Hf as (Hi & Hrest). rewrite Hi.
  destruct (index s0 !! term) as [l|] eqn:Hl; [|done]. simpl.
  f_equal. apply frame_deref; [by split | by eapply Hwf].
Qed.

Lemma frame_new_list s0 s v : frame s0 s -> frame s0 (with_new_list s v).
Proof.
  intros Hf. pose proof (frame_length _ _ Hf) as Hlen.
  destruct Hf as (Hi & Ht & Hl). unfold frame. simpl.
  split_and!; [done | done |]. by rewrite take_app_le.
Qed.

Lemma frame_alter s0 s f l :
  frame s0 s -> length (lists s0) <= l -> frame s0 (set_lists (alter f l) s).
Proof.
  intros (Hi & Ht & Hl) Hge. unfold frame. simpl.
  split_and!; [done | done |]. by rewrite take_alter_ge.
Qed.

Lemma deref_alter s f l :
  l < length (lists s) -> deref (set_lists (alter f l) s) l = f (deref s l).
Proof.
  intros Hl. unfold deref. simpl. rewrite list_lookup_alter_eq.
  destruct (lookup_lt_is_Some_2 _ _ Hl) as [v ->]. done.
Qed.

(** [for j in range(len(l)): l.pop()] empties the object [l]. *)
Lemma pop_loop l n : forall j s,
  l < length (lists s) -> length (deref s l) = n ->
  for_each (seq j n) (fun _ => list_pop l ;; ret tt) s
  = (Return tt, set_lists (alter (fun _ => []) l) s).
Proof.
  induction n as [|n IH]; intros j s Hl Hn.
  - simpl. unfold ret. f_equal. destruct s as [h i t].
    unfold set_lists. simpl. f_equal. symmetry.
    unfold deref in Hn. simpl in *.
    destruct (lookup_lt_is_Some_2 _ _ Hl) as [v Hv]. rewrite Hv in Hn.
    simpl in Hn. apply nil_length_inv in Hn. subst v.
    apply list_eq. intros i'. destruct (decide (i' = l)) as [->|Hne].
    + by rewrite list_lookup_alter_eq, Hv.
    + by rewrite list_lookup_alter_ne.
  - cbn [seq for_each]. unfold bind at 1. unfold bind at 1, list_pop.
    destruct (deref s l) as [|x v] eqn:Hd using rev_ind; [done|].
    clear IHv. rewrite last_snoc. unfold ret at 1.
    rewrite IH.
    + f_equal. unfold set_lists. simpl. f_equal.
      by rewrite list_alter_alter_eq.
    + simpl. by rewrite length_alter.
    + rewrite deref_alter by done. rewrite Hd, removelast_last.
      rewrite length_app in Hn. simpl in Hn. lia.
Qed.

(** [if term in index: list_of_files += index[term]], on a new list. *)
Lemma extend_new_list s term :
  wf_store s ->
  (if bool_decide (is_Some (index s !! term)) then
     l <- index_getitem term ;;
     list_extend (length (lists s)) l
   else ret tt) (with_new_list s [])
  = (Return tt, with_new_list s (default [] (entry s term))).
Proof.
  intros Hwf. unfold entry.
  destruct (index s !! term) as [l|] eqn:Hl.
  - rewrite bool_decide_eq_true_2 by done.
    rewrite bind_run, (index_getitem_run term l) by done. mrun.
    rewrite alter_new_list.
    rewrite deref_new_list_old by (by eapply Hwf). done.
  - rewrite bool_decide_eq_false_2 by (by intros [? ?]). done.
Qed.

(** [words[0]] on a query without terms. *)
Lemma search_no_term s query :
  Str.split query = [] ->
  search query s = (Raise IndexError, with_new_list s []).
Proof. intros Hw. unfold search. rewrite Hw. reflexivity. Qed.

End RunSearch.

Section RunSearchLoop.

Variable s0 : store.
Hypothesis wf0 : wf_store s0.

(** The loop over the further terms of the query, from its [k]-th turn:
    [cur] is the object that [list_of_files] is bound to when it starts. *)
Lemma search_loop words rest : forall k s cur,
  drop (S k) words = rest ->
  frame s0 s ->
  length (lists s0) <= cur -> cur < length (lists s) ->
  exists r s',
    for_fold (seq k (length rest)) cur
      (fun list_of_files i =>
         next_term <- match words !! (i + 1) with
                      | Some w => ret w
                      | None => raise IndexError
                      end ;;
         present <- index_contains next_term ;;
         if negb present then
           n <- list_len list_of_files ;;
           for_each (seq 0 n) (fun j => list_pop list_of_files ;; ret tt) ;;
           ret list_of_files
         else
           list2 <- index_getitem next_term ;;
           find_intersection list_of_files list2) s
    = (Return r, s') /\
    frame s0 s' /\
    length (lists s0) <= r /\ r < length (lists s') /\
    deref s' r = foldl (search_step s0) (deref s cur) rest.
Proof.
  induction rest as [|term rest IH]; intros k s cur Hd Hf Hge Hlt.
  - exists cur, s. by split_and!.
  - apply drop_head in Hd as [Hk Hd].
    cbn [length seq for_fold foldl].
    replace (S k) with (k + 1) in Hk by lia.
    unfold search_step at 2. rewrite <- (frame_entry s0 s term wf0 Hf).
    unfold entry.
    destruct (index s !! term) as [l|] eqn:Hl; simpl.
    + (* the term is in the index: intersect *)
      assert (l < length (lists s0)) as Hl0.
      { apply (wf0 term). destruct Hf as (<- & _). done. }
      pose proof (frame_length _ _ Hf) as Hlen.
      destruct (IH (S k) (with_new_list s
                  (intersection_of (deref s cur) (deref s l)))
                  (length (lists s))) as (r & s' & Hrun & Hf' & Hr1 & Hr2 & Hc).
      * done.
      * by apply frame_new_list.
      * lia.
      * simpl. rewrite length_app. simpl. lia.
      * exists r, s'. split_and!; try done.
        -- rewrite bind_run, bind_run, Hk. mrun. rewrite Hl.
           rewrite bool_decide_eq_true_2 by done. cbn [negb]. mrun.
           rewrite find_intersection_run by lia. exact Hrun.
        -- rewrite Hc. by rewrite deref_new_list_new.
    + (* the term is not in the index: empty the running list *)
      destruct (IH (S k) (set_lists (alter (fun _ => []) cur) s) cur)
        as (r & s' & Hrun & Hf' & Hr1 & Hr2 & Hc).
      * done.
      * by apply frame_alter.
      * done.
      * simpl. by rewrite length_alter.
      * exists r, s'. split_and!; try done.
        -- rewrite bind_run, bind_run, Hk. mrun. rewrite Hl.
           rewrite bool_decide_eq_false_2 by (by intros [? ?]).
           cbn [negb]. mrun.
           rewrite (pop_loop cur (length (deref s cur))) by done.
           mrun. exact Hrun.
        -- rewrite Hc. by rewrite deref_alter.
Qed.

(** [search] on a query of at least one term returns a new list object,
    whose content is [search_content], and keeps [s0] as it is. *)
Lemma search_run query :
  Str.split query <> [] ->
  exists r s',
    search query s0 = (Return r, s') /\
    frame s0 s' /\
    deref s' r = search_content s0 (Str.split query).
Proof.
  intros Hne. unfold search.
  destruct (Str.split query) as [|first_term rest] eqn:Hw; [done|].
  clear Hne. mrun. fold (with_new_list s0 []).
  cbn [lookup list_lookup]. mrun.
  destruct rest as [|term rest].
  - (* a single term *)
    exists (length (lists s0)),
      (with_new_list s0 (default [] (entry s0 first_term))).
    split_and!.
    + simpl (length _ =? 1). cbv iota. rewrite for_each_cons. mrun.
      rewrite index_new_list, (extend_new_list s0 first_term wf0). done.
    + apply frame_new_list, frame_refl.
    + by rewrite deref_new_list_new.
  - (* several terms *)
    destruct (search_loop (first_term :: term :: rest) (term :: rest) 0
                (with_new_list s0 (default [] (entry s0 first_term)))
                (length (lists s0)))
      as (r & s' & Hrun & Hf' & _ & _ & Hc).
    + done.
    + apply frame_new_list, frame_refl.
    + done.
    + simpl. rewrite length_app. simpl. lia.
    + exists r, s'. split_and!; try done.
      * simpl (length _ =? 1). cbv iota. mrun.
        change (1 <? length (first_term :: term :: rest)) with true.
        cbv iota. mrun.
        rewrite index_new_list, (extend_new_list s0 first_term wf0).
        simpl (length _ - 1). exact Hrun.
      * rewrite Hc. by rewrite deref_new_list_new.
Qed.

End RunSearchLoop.

(** ** What [search] writes to *)

Section Above.

Variable n : nat.

Lemma untouched_refl s : n <= length (lists s) -> untouched n s s.
Proof. by intros Hn. Qed.

Lemma untouched_trans s1 s2 s3 :
  untouched n s1 s2 -> untouched n s2 s3 -> untouched n s1 s3.
Proof.
  intros (Hi1 & Ht1 & Hl1 & _) (Hi2 & Ht2 & Hl2 & Hn).
  split_and!; [congruence | congruence | congruence | done].
Qed.

Lemma above_ret {A} (a : A) (P : A -> Prop) : P a -> above n (ret a) P.
Proof.
  intros Ha s Hn. split; [by apply untouched_refl|].
  by intros a' [= <-].
Qed.

Lemma above_raise {A} e (P : A -> Prop) : above n (raise e) P.
Proof. intros s Hn. split; [by apply untouched_refl | done]. Qed.

(** A statement that only reads. *)
Lemma above_pure {A} (m : M A) :
  (forall s, (m s).2 = s) -> above n m (fun _ => True).
Proof.
  intros Hm s Hn. rewrite Hm. split; [by apply untouched_refl | done].
Qed.

Lemma above_bind {A B} (m : M A) (k : A -> M B) P Q :
  above n m P -> (forall a, P a -> above n (k a) Q) -> above n (bind m k) Q.
Proof.
  intros Hm Hk s Hn. rewrite bind_run. destruct (Hm s Hn) as [Hu Hp].
  destruct (m s) as [[a|e] s1]; simpl in *; [|done].
  destruct (Hk a (Hp a eq_refl) s1) as [Hu' Hq]; [apply Hu|].
  split; [by eapply untouched_trans | done].
Qed.

Lemma above_for_each {A} (xs : list A) body :
  (forall x, above n (body x) (fun _ => True)) ->
  above n (for_each xs body) (fun _ => True).
Proof.
  intros Hb. induction xs as [|x xs IH]; [by apply above_ret|].
  rewrite for_each_cons. eapply above_bind; [apply Hb | done].
Qed.

Lemma above_for_fold {A V} (xs : list A) (Inv : V -> Prop) body : forall v,
  Inv v -> (forall v x, Inv v -> above n (body v x) Inv) ->
  above n (for_fold xs v body) Inv.
Proof.
  induction xs as [|x xs IH]; intros v Hv Hb; [by apply above_ret|].
  cbn [for_fold]. eapply above_bind; [by apply Hb|].
  intros v' Hv'. by apply IH.
Qed.

Lemma above_new_list : above n new_list (fun r => n <= r).
Proof.
  intros s Hn. rewrite new_list_run. simpl. split.
  - split_and!; simpl; [done | done | by rewrite take_app_le |].
    rewrite length_app. lia.
  - by intros a [= <-].
Qed.

Lemma untouched_alter s f l :
  n <= l -> n <= length (lists s) -> untouched n s (set_lists (alter f l) s).
Proof.
  intros Hl Hn. split_and!; [done | done | |]; simpl.
  - by rewrite take_alter_ge.
  - by rewrite length_alter.
Qed.

Lemma above_list_append l x :
  n <= l -> above n (list_append l x) (fun _ => True).
Proof.
  intros Hl s Hn. rewrite list_append_run.
  split; [by apply untouched_alter | done].
Qed.

Lemma above_list_extend l l2 :
  n <= l -> above n (list_extend l l2) (fun _ => True).
Proof.
  intros Hl s Hn. rewrite list_extend_run.
  split; [by apply untouched_alter | done].
Qed.

Lemma above_list_pop l : n <= l -> above n (list_pop l) (fun _ => True).
Proof.
  intros Hl s Hn. unfold list_pop. destruct (last (deref s l)); simpl.
  - split; [by apply untouched_alter | done].
  - split; [by apply untouched_refl | done].
Qed.

Lemma above_list_getitem l i : above n (list_getitem l i) (fun _ => True).
Proof.
  apply above_pure. intros s. unfold list_getitem.
  by destruct (deref s l !! i).
Qed.

Lemma above_index_getitem term :
  above n (index_getitem term) (fun _ => True).
Proof.
  apply above_pure. intros s. unfold index_getitem.
  by destruct (index s !! term).
Qed.

Lemma above_item (words : list string) i :
  above n (match words !! i with
           | Some w => ret w
           | None => raise IndexError
           end) (fun _ => True).
Proof. destruct (words !! i); [by apply above_ret | apply above_raise]. Qed.

(** [find_intersection] writes to the list it creates, and returns it. *)
Lemma find_intersection_above list1 list2 :
  above n (find_intersection list1 list2) (fun r => n <= r).
Proof.
  unfold find_intersection.
  eapply above_bind; [apply above_new_list|]. intros intersection Hge.
  eapply above_bind; [by apply above_pure|]. intros elems _.
  eapply above_bind; [|intros _ _; by apply above_ret].
  apply above_for_each. intros elem.
  eapply above_bind; [by apply above_pure|]. intros len2 _.
  apply above_for_each. intros i.
  eapply above_bind; [apply above_list_getitem|]. intros elem_2 _.
  case_bool_decide; [|by apply above_ret].
  eapply above_bind; [by apply above_pure|]. intros v _.
  case_bool_decide; [by apply above_ret | by apply above_list_append].
Qed.

(** [search] writes to the lists that it and [find_intersection] create. *)
Lemma search_above query : above n (search query) (fun r => n <= r).
Proof.
  unfold search.
  eapply above_bind; [apply above_new_list|]. intros list_of_files Hge.
  eapply above_bind; [apply above_item|]. intros first_term _.
  eapply above_bind with (P := fun _ => True).
  { destruct (length (Str.split query) =? 1); [|by apply above_ret].
    apply above_for_each. intros word.
    eapply above_bind; [by apply above_pure|]. intros [|] _.
    - eapply above_bind; [apply above_index_getitem|]. intros l _.
      by apply above_list_extend.
    - by apply above_ret. }
  intros _ _.
  destruct (1 <? length (Str.split query)); [|by apply above_ret].
  eapply above_bind; [by apply above_pure|]. intros present _.
  eapply above_bind with (P := fun _ => True).
  { destruct present; [|by apply above_ret].
    eapply above_bind; [apply above_index_getitem|]. intros l _.
    by apply above_list_extend. }
  intros _ _. apply above_for_fold; [done|].
  intros cur i Hcur.
  eapply above_bind; [apply above_item|]. intros next_term _.
  eapply above_bind; [by apply above_pure|]. intros [|] _; cbn [negb].
  - eapply above_bind; [apply above_index_getitem|]. intros list2 _.
    apply find_intersection_above.
  - eapply above_bind; [by apply above_pure|]. intros len _.
    eapply above_bind; [|intros _ _; by apply above_ret].
    apply above_for_each. intros j.
    eapply above_bind; [by apply above_list_pop|]. intros _ _.
    by apply above_ret.
Qed.

End Above.

(** ** The content that [search] returns *)

Section SearchContent.

Variable s : store.

Lemma search_step_elem acc term d :
  d ∈ search_step s acc term <->
  d ∈ acc /\ exists v, entry s term = Some v /\ d ∈ v.
Proof.
  unfold search_step. destruct (entry s term) as [v|].
  - unfold intersection_of. rewrite intersection_from_elem.
    split.
    + intros [Hin|[Ha Hv]]; [by apply elem_of_nil in Hin|]. eauto.
    + intros (Ha & v' & [= <-] & Hv). by right.
  - split; [by intros ?%elem_of_nil | by intros (_ & v & [=] & _)].
Qed.

Lemma search_fold_elem rest : forall acc d,
  d ∈ foldl (search_step s) acc rest <->
  d ∈ acc /\ forall term, term ∈ rest ->
               exists v, entry s term = Some v /\ d ∈ v.
Proof.
  induction rest as [|t rest IH]; intros acc d; cbn [foldl].
  - split; [|by intros [? _]]. intros Hd. split; [done|].
    by intros term ?%elem_of_nil.
  - rewrite IH, search_step_elem. split.
    + intros ((Ha & Ht) & Hrest). split; [done|].
      intros term [->|Hin]%elem_of_cons; auto.
    + intros (Ha & Hall). split_and!; [done | |].
      * apply Hall. left.
      * intros term Hin. apply Hall. by right.
Qed.

Lemma search_content_elem words d :
  words <> [] ->
  d ∈ search_content s words <->
  forall term, term ∈ words -> exists v, entry s term = Some v /\ d ∈ v.
Proof.
  destruct words as [|first_term rest]; [done|]. intros _.
  unfold search_content. rewrite search_fold_elem. split.
  - intros [Hfirst Hrest] term [->|Hin]%elem_of_cons; [|by apply Hrest].
    destruct (entry s first_term) as [v|]; [by exists v|].
    by apply elem_of_nil in Hfirst.
  - intros Hall. split.
    + destruct (Hall first_term) as (v & -> & Hv); [left | done].
    + intros term Hin. apply Hall. by right.
Qed.

Lemma search_fold_repeat term v n :
  entry s term = Some v -> NoDup v ->
  foldl (search_step s) v (replicate n term) = v.
Proof.
  intros He Hv. induction n as [|n IH]; [done|].
  cbn [replicate foldl]. unfold search_step at 2. rewrite He.
  unfold intersection_of. rewrite (intersection_from_self [] v v); done.
Qed.

Lemma search_content_repeat term v n :
  entry s term = Some v -> NoDup v ->
  search_content s (replicate (S n) term) = v.
Proof.
  intros He Hv. cbn [replicate search_content]. rewrite He. simpl.
  by apply search_fold_repeat.
Qed.

End SearchContent.

(** ** Running [add_term_to_index] *)

Section RunAddTerm.

Lemma add_term_absent term file s :
  index s !! term = None ->
  add_term_to_index term file s =
    (Return tt,
     Store (lists s ++ [[file]])
           (<[term := length (lists s)]> (index s)) (file_titles s)).
Proof.
  intros Hn. unfold add_term_to_index. mrun. rewrite Hn.
  rewrite bool_decide_eq_false_2 by (by intros [? ?]). cbn [negb]. mrun.
  rewrite (index_getitem_run term (length (lists s)))
    by apply lookup_insert_eq.
  mrun. unfold set_lists, set_index. simpl. f_equal. f_equal.
  rewrite alter_app_r_alt by lia. by rewrite Nat.sub_diag.
Qed.

Lemma add_term_present term file s l :
  index s !! term = Some l ->
  add_term_to_index term file s =
    (Return tt,
     if decide (file ∈ deref s l) then s
     else set_lists (alter (fun v => v ++ [file]) l) s).
Proof.
  intros Hl. unfold add_term_to_index. mrun. rewrite Hl.
  rewrite bool_decide_eq_true_2 by done. cbn [negb]. mrun.
  destruct (decide (file ∈ deref s l)) as [Hin|Hnin].
  - rewrite bool_decide_eq_true_2 by done. by mrun.
  - rewrite bool_decide_eq_false_2 by done. by mrun.
Qed.

Lemma deref_alter_eq s f l :
  deref (set_lists (alter f l) s) l = default [] (f <$> lists s !! l).
Proof. unfold deref. simpl. by rewrite list_lookup_alter_eq. Qed.

Lemma deref_alter_ne s f l l' :
  l <> l' -> deref (set_lists (alter f l) s) l' = deref s l'.
Proof. intros Hne. unfold deref. simpl. by rewrite list_lookup_alter_ne. Qed.

End RunAddTerm.

(** ** Invariants of [create_index] *)

Section Preserves.

Context {A B : Type} (I : store -> Prop).

Lemma preserves_ret (a : A) : preserves I (ret a).
Proof. by intros s. Qed.

Lemma preserves_raise e : preserves I (raise (A := A) e).
Proof. by intros s. Qed.

Lemma preserves_bind (m : M A) (k : A -> M B) :
  preserves I m -> (forall a, preserves I (k a)) -> preserves I (bind m k).
Proof.
  intros Hm Hk s Hs. rewrite bind_run. specialize (Hm s Hs).
  destruct (m s) as [[a|e] s']; simpl in *; [by apply Hk | done].
Qed.

End Preserves.

Lemma preserves_for_each {A} I (xs : list A) body :
  (forall x, preserves I (body x)) -> preserves I (for_each xs body).
Proof.
  intros Hb. induction xs as [|x xs IH].
  - by intros s.
  - rewrite for_each_cons. apply preserves_bind; [apply Hb | done].
Qed.

Section DupFree.

Lemma add_term_dup_free term file :
  preserves index_dup_free (add_term_to_index term file).
Proof.
  intros s Hs. destruct (index s !! term) as [l|] eqn:Hl.
  - rewrite (add_term_present term file s l Hl). simpl.
    destruct (decide (file ∈ deref s l)) as [Hin|Hnin]; [done|].
    intros term' l' Hl'. simpl in Hl'.
    destruct (decide (l = l')) as [<-|Hne].
    + rewrite deref_alter_eq. pose proof (Hs term l Hl) as Hnd.
      unfold deref in Hnd, Hnin.
      destruct (lists s !! l) as [v|]; simpl in *; [|apply NoDup_nil_2].
      apply NoDup_app. split_and!; [done | | apply NoDup_singleton].
      intros x Hx ->%list_elem_of_singleton. done.
    + rewrite deref_alter_ne by done. by apply (Hs term').
  - rewrite (add_term_absent term file s Hl). simpl.
    intros term' l' Hl'. simpl in Hl'. unfold deref. simpl.
    assert (NoDup (default [] ((lists s ++ [[file]]) !! length (lists s))))
      as Hnew.
    { rewrite list_lookup_middle by done. apply NoDup_singleton. }
    destruct (decide (term = term')) as [<-|Hne].
    + rewrite lookup_insert_eq in Hl'. by injection Hl' as <-.
    + rewrite lookup_insert_ne in Hl' by done.
      destruct (decide (l' < length (lists s))) as [Hlt|Hge].
      * rewrite lookup_app_l by done. by apply (Hs term').
      * destruct (decide (l' = length (lists s))) as [->|Hne']; [done|].
        rewrite lookup_ge_None_2; [apply NoDup_nil_2|].
        rewrite length_app. simpl. lia.
Qed.

End DupFree.

(** ** Indexing twice *)

Section IndexGrows.

Lemma index_grows_refl s : wf_store s -> index_grows s s.
Proof. by intros Hwf. Qed.

Lemma index_grows_trans s1 s2 s3 :
  index_grows s1 s2 -> index_grows s2 s3 -> index_grows s1 s3.
Proof.
  intros (_ & Ht1 & Hh1) (Hwf & Ht2 & Hh2).
  split_and!; [done | congruence | auto].
Qed.

Lemma has_allocated s term file :
  has s term file -> exists l v,
    index s !! term = Some l /\ lists s !! l = Some v /\ file ∈ v.
Proof.
  intros (l & Hl & Hin). unfold deref in Hin.
  destruct (lists s !! l) as [v|] eqn:Hv; [by exists l, v|].
  by apply elem_of_nil in Hin.
Qed.

Lemma add_term_noop term file s :
  has s term file -> add_term_to_index term file s = (Return tt, s).
Proof.
  intros (l & Hl & Hin). rewrite (add_term_present term file s l Hl).
  by rewrite decide_True.
Qed.

Lemma add_term_grows term file s :
  wf_store s ->
  exists s', add_term_to_index term file s = (Return tt, s') /\
             index_grows s s' /\ has s' term file.
Proof.
  intros Hwf. destruct (index s !! term) as [l|] eqn:Hl.
  - rewrite (add_term_present term file s l Hl).
    destruct (decide (file ∈ deref s l)) as [Hin|Hnin].
    + exists s. split_and!; [done | by apply index_grows_refl | by exists l].
    + eexists. split; [done|].
      pose proof (Hwf term l Hl) as Hlt. simpl in Hlt.
      split; [split_and!|].
      * intros t' l' Hl'. simpl in *. rewrite length_alter.
        by apply (Hwf t').
      * done.
      * intros t' f' (l' & Hl' & Hin'). exists l'. split; [done|].
        destruct (decide (l = l')) as [<-|Hne].
        -- rewrite deref_alter by done. set_solver.
        -- by rewrite deref_alter_ne.
      * exists l. split; [done|]. rewrite deref_alter by done. set_solver.
  - rewrite (add_term_absent term file s Hl). eexists. split; [done|].
    split; [split_and!|].
    + intros t' l' Hl'. simpl in *. rewrite length_app. simpl.
      destruct (decide (term = t')) as [<-|Hne].
      * rewrite lookup_insert_eq in Hl'. injection Hl' as <-. lia.
      * rewrite lookup_insert_ne in Hl' by done.
        pose proof (Hwf t' l' Hl') as Hlt. simpl in Hlt. lia.
    + done.
    + intros t' f' Hhas.
      destruct (has_allocated _ _ _ Hhas) as (l' & v & Hl' & Hv & Hin).
      exists l'. simpl. split.
      * rewrite lookup_insert_ne; [done|]. congruence.
      * unfold deref. simpl.
        rewrite lookup_app_l by (by eapply lookup_lt_Some).
        by rewrite Hv.
    + exists (length (lists s)). simpl. split.
      * apply lookup_insert_eq.
      * unfold deref. simpl. rewrite list_lookup_middle by done.
        simpl. set_solver.
Qed.

(** The loop over the words of one line. *)
Lemma words_loop_grows file words : forall s,
  wf_store s ->
  exists s',
    for_each words (fun word =>
      if bool_decide (clean_word word <> EmptyString)
      then add_term_to_index (clean_word word) file
      else ret tt) s = (Return tt, s') /\
    index_grows s s' /\ words_indexed s' file words.
Proof.
  induction words as [|word words IH]; intros s Hwf.
  - exists s. split_and!; [done | by apply index_grows_refl |].
    by intros word ?%elem_of_nil.
  - rewrite for_each_cons, bind_run.
    assert (exists s1,
      (if bool_decide (clean_word word <> EmptyString)
       then add_term_to_index (clean_word word) file
       else ret tt) s = (Return tt, s1) /\ index_grows s s1 /\
      (clean_word word <> EmptyString -> has s1 (clean_word word) file))
      as (s1 & -> & Hg1 & Hw1).
    { case_bool_decide as Hc.
      - destruct (add_term_grows (clean_word word) file s Hwf)
          as (s1 & Hrun & Hg & Hh).
        exists s1. by split_and!.
      - exists s. split_and!; [done | by apply index_grows_refl | done]. }
    destruct (IH s1) as (s' & Hrun & Hg & Hws); [apply Hg1|].
    exists s'. split_and!; [done | by eapply index_grows_trans |].
    intros w [->|Hin]%elem_of_cons Hc; [|by apply Hws].
    apply Hg. by apply Hw1.
Qed.

Lemma words_loop_noop file words : forall s,
  words_indexed s file words ->
  for_each words (fun word =>
    if bool_decide (clean_word word <> EmptyString)
    then add_term_to_index (clean_word word) file
    else ret tt) s = (Return tt, s).
Proof.
  induction words as [|word words IH]; intros s Hws; [done|].
  rewrite for_each_cons, bind_run.
  assert ((if bool_decide (clean_word word <> EmptyString)
           then add_term_to_index (clean_word word) file
           else ret tt) s = (Return tt, s)) as ->.
  { case_bool_decide as Hc; [|done].
    apply add_term_noop, Hws; [left | done]. }
  apply IH. intros w Hin. apply Hws. by right.
Qed.

(** The loop over the lines after the first. *)
Lemma lines_loop_grows file lines : forall s,
  wf_store s ->
  exists s',
    for_each lines (fun line =>
      for_each (make_list_of_words line) (fun word =>
        if bool_decide (clean_word word <> EmptyString)
        then add_term_to_index (clean_word word) file
        else ret tt)) s = (Return tt, s') /\
    index_grows s s' /\
    forall line, line ∈ lines ->
      words_indexed s' file (make_list_of_words line).
Proof.
  induction lines as [|line lines IH]; intros s Hwf.
  - exists s. split_and!; [done | by apply index_grows_refl |].
    by intros line ?%elem_of_nil.
  - rewrite for_each_cons, bind_run.
    destruct (words_loop_grows file (make_list_of_words line) s Hwf)
      as (s1 & -> & Hg1 & Hw1).
    destruct (IH s1) as (s' & Hrun & Hg & Hws); [apply Hg1|].
    exists s'. split_and!; [done | by eapply index_grows_trans |].
    intros ln [->|Hin]%elem_of_cons; [|by apply Hws].
    intros w Hw Hc. apply Hg. by apply Hw1.
Qed.

Lemma lines_loop_noop file lines : forall s,
  (forall line, line ∈ lines ->
     words_indexed s file (make_list_of_words line)) ->
  for_each lines (fun line =>
    for_each (make_list_of_words line) (fun word =>
      if bool_decide (clean_word word <> EmptyString)
      then add_term_to_index (clean_word word) file
      else ret tt)) s = (Return tt, s).
Proof.
  induction lines as [|line lines IH]; intros s Hws; [done|].
  rewrite for_each_cons, bind_run.
  rewrite words_loop_noop by (apply Hws; left).
  apply IH. intros ln Hin. apply Hws. by right.
Qed.

End IndexGrows.

Section OneFile.

Variable fs : filesystem.

Lemma for_each_cons_run {A} (x : A) xs body s :
  for_each (x :: xs) body s =
    match for_each [x] body s with
    | (Return _, s') => for_each xs body s'
    | (Raise e, s') => (Raise e, s')
    end.
Proof.
  cbn [for_each]. unfold bind.
  by destruct (body x s) as [[[]|e] s'].
Qed.

Lemma create_index_cons file files s :
  create_index fs (file :: files) s =
    match create_index fs [file] s with
    | (Return _, s') => create_index fs files s'
    | (Raise e, s') => (Raise e, s')
    end.
Proof. unfold create_index. apply for_each_cons_run. Qed.

Lemma extends_refl s : wf_store s -> extends fs s s.
Proof. by intros Hwf. Qed.

Lemma extends_trans s1 s2 s3 :
  extends fs s1 s2 -> extends fs s2 s3 -> extends fs s1 s3.
Proof.
  intros (_ & Hh1 & Ht1) (Hwf & Hh2 & Ht2). split_and!; [done | auto |].
  intros file first rest Hd Ht. by eapply Ht2, Ht1.
Qed.

Lemma index_grows_extends s s' : index_grows s s' -> extends fs s s'.
Proof.
  intros (Hwf & Ht & Hh). split_and!; [done | done |].
  intros file first rest _. unfold titled. by rewrite Ht.
Qed.

Lemma extends_settled s s' file first rest :
  extends fs s s' -> document fs file = Some (first, rest) ->
  settled s file first rest -> settled s' file first rest.
Proof.
  intros (_ & Hh & Ht) Hd (Htitle & Hfirst & Hrest). split_and!.
  - by eapply Ht.
  - intros w Hw Hc. by apply Hh, Hfirst.
  - intros line Hl w Hw Hc. by apply Hh, (Hrest line).
Qed.

(** The guarded assignment to [file_titles], once the guard is known. *)
Lemma set_title_guard file title s :
  (if negb (bool_decide (is_Some (file_titles s !! title)))
   then file_titles_setitem file title else ret tt) s =
    (Return tt,
     if decide (is_Some (file_titles s !! title)) then s
     else set_file_titles (insert file title) s).
Proof.
  destruct (decide (is_Some (file_titles s !! title))).
  - by rewrite bool_decide_eq_true_2.
  - by rewrite bool_decide_eq_false_2.
Qed.

Lemma set_title_extends file first rest s :
  wf_store s -> document fs file = Some (first, rest) ->
  let s' := if decide (is_Some (file_titles s !! Str.drop_last first))
            then s
            else set_file_titles (insert file (Str.drop_last first)) s in
  extends fs s s' /\ titled s' file (Str.drop_last first).
Proof.
  intros Hwf Hd. simpl.
  destruct (decide (is_Some (file_titles s !! Str.drop_last first)))
    as [Hin|Hnin].
  - split; [by apply extends_refl | by left].
  - split; [split_and!; [done | done |] |].
    + intros file' first' rest' Hd' [Hk|Hv].
      * left. simpl. rewrite lookup_insert_is_Some'. by right.
      * right. simpl. destruct (decide (file = file')) as [<-|Hne].
        -- rewrite Hd in Hd'. injection Hd' as <- <-.
           apply lookup_insert_eq.
        -- by rewrite lookup_insert_ne.
    + right. simpl. apply lookup_insert_eq.
Qed.

(** Indexing one file that can be read. *)
Lemma create_index_one file first rest s :
  document fs file = Some (first, rest) ->
  create_index fs [file] s =
    (let s1 := if decide (is_Some (file_titles s !! Str.drop_last first))
               then s
               else set_file_titles (insert file (Str.drop_last first)) s
     in
     (for_each (make_list_of_words (Str.drop_last first)) (fun word =>
        if bool_decide (clean_word word <> EmptyString)
        then add_term_to_index (clean_word word) file
        else ret tt) ;;
      for_each rest (fun line =>
        for_each (make_list_of_words line) (fun word =>
          if bool_decide (clean_word word <> EmptyString)
          then add_term_to_index (clean_word word) file
          else ret tt))) s1).
Proof.
  unfold document. intros Hd.
  destruct (fs !! file) as [content|] eqn:Hfs; [|done].
  destruct (Str.lines content) as [|first' rest'] eqn:Hl; [done|].
  injection Hd as -> ->.
  unfold create_index. cbn [for_each]. rewrite bind_run, bind_run.
  unfold open. rewrite Hfs, Hl. mrun. cbv zeta. mrun.
  rewrite set_title_guard. cbv beta iota zeta.
  rewrite (bind_run (for_each _ _)).
  match goal with
  | |- context [for_each (make_list_of_words (Str.drop_last first)) ?b ?s] =>
      destruct (for_each (make_list_of_words (Str.drop_last first)) b s)
        as [[[]|e] s2]
  end; [|done].
  match goal with
  | |- context [for_each rest ?b s2] =>
      by destruct (for_each rest b s2) as [[[]|e] s3]
  end.
Qed.

Lemma create_index_one_grows file first rest s :
  wf_store s -> document fs file = Some (first, rest) ->
  exists s',
    create_index fs [file] s = (Return tt, s') /\
    extends fs s s' /\ settled s' file first rest.
Proof.
  intros Hwf Hd. rewrite (create_index_one file first rest s Hd).
  destruct (set_title_extends file first rest s Hwf Hd) as [He1 Ht1].
  cbv zeta in *.
  set (s1 := if decide (is_Some (file_titles s !! Str.drop_last first))
             then s
             else set_file_titles (insert file (Str.drop_last first)) s)
    in *.
  rewrite bind_run.
  destruct (words_loop_grows file
              (make_list_of_words (Str.drop_last first)) s1)
    as (s2 & -> & Hg2 & Hw2); [apply He1|].
  destruct (lines_loop_grows file rest s2) as (s3 & -> & Hg3 & Hw3);
    [apply Hg2|].
  exists s3. split; [done|].
  pose proof (index_grows_extends _ _ Hg2) as He2.
  pose proof (index_grows_extends _ _ Hg3) as He3.
  split; [exact (extends_trans _ _ _ He1 (extends_trans _ _ _ He2 He3))|].
  split_and!.
  - destruct He3 as (_ & _ & Ht3). eapply Ht3; [done|].
    destruct He2 as (_ & _ & Ht2). by eapply Ht2.
  - intros w Hw Hc. apply Hg3. by apply Hw2.
  - done.
Qed.

Lemma create_index_one_noop file first rest s :
  document fs file = Some (first, rest) ->
  settled s file first rest ->
  create_index fs [file] s = (Return tt, s).
Proof.
  intros Hd (Htitle & Hfirst & Hrest).
  rewrite (create_index_one file first rest s Hd). cbv zeta.
  assert ((if decide (is_Some (file_titles s !! Str.drop_last first))
           then s
           else set_file_titles (insert file (Str.drop_last first)) s) = s)
    as ->.
  { case_decide as Hk; [done|]. destruct Htitle as [?|Hv]; [done|].
    destruct s as [h i t]. unfold set_file_titles. simpl in *.
    f_equal. by apply insert_id. }
  rewrite bind_run, words_loop_noop by done.
  by rewrite lines_loop_noop.
Qed.

Lemma create_index_one_raises file :
  document fs file = None ->
  exists e, forall s, create_index fs [file] s = (Raise e, s).
Proof.
  unfold document, create_index. intros Hd. cbn [for_each].
  destruct (fs !! file) as [content|] eqn:Hfs.
  - destruct (Str.lines content) as [|first rest] eqn:Hl; [|done].
    exists StopIteration. intros s. rewrite bind_run, bind_run.
    unfold open. by rewrite Hfs, Hl.
  - exists OSError. intros s. rewrite bind_run, bind_run.
    unfold open. by rewrite Hfs.
Qed.

Lemma create_index_extends filenames : forall s,
  wf_store s -> extends fs s (create_index fs filenames s).2.
Proof.
  induction filenames as [|file files IH]; intros s Hwf.
  - by apply extends_refl.
  - rewrite create_index_cons.
    destruct (document fs file) as [[first rest]|] eqn:Hd.
    + destruct (create_index_one_grows file first rest s Hwf Hd)
        as (s1 & -> & He1 & _).
      eapply extends_trans; [done|]. apply IH, He1.
    + destruct (create_index_one_raises file Hd) as [e ->].
      by apply extends_refl.
Qed.

(** Stores that [create_index] builds from nothing are well formed. *)
Lemma create_index_wf filenames s :
  wf_store s -> wf_store (create_index fs filenames s).2.
Proof. intros Hwf. by apply create_index_extends. Qed.

End OneFile.

(** ** Queries *)

Lemma two_term_store_wf : wf_store two_term_store.
Proof. apply (bool_decide_unpack _). vm_compute. exact I. Qed.

Lemma two_term_store_dup_free : index_dup_free two_term_store.
Proof. apply (bool_decide_unpack _). vm_compute. exact I. Qed.

(** C1: on a query of at least one term, [search] returns a list that holds
    a document exactly when every term of the query, as it is written, is a
    key of [index] and the document is in the list of each of them.  (The
    lists of [index] need not even be free of duplicates for this.) *)
Theorem search_conjunctive s query :
  wf_store s -> Str.split query <> [] ->
  exists r s',
    search query s = (Return r, s') /\
    forall d,
      d ∈ deref s' r <->
      forall term, term ∈ Str.split query ->
        exists l, index s !! term = Some l /\ d ∈ deref s l.
Proof.
  intros Hwf Hne.
  destruct (search_run s Hwf query Hne) as (r & s' & Hrun & _ & Hc).
  exists r, s'. split; [done|]. intros d.
  rewrite Hc, search_content_elem by done.
  split; intros Hall term Hin; destruct (Hall term Hin) as (x & Hx & Hd).
  - unfold entry in Hx. destruct (index s !! term) as [l|]; [|done].
    exists l. simpl in Hx. by injection Hx as <-.
  - exists (deref s x). unfold entry. by rewrite Hx.
Qed.

Lemma search_conjunctive_witness :
  wf_store two_term_store /\ Str.split "apple ball" <> [] /\
  exists r s',
    search "apple ball" two_term_store = (Return r, s') /\
    forall d,
      d ∈ deref s' r <->
      forall term, term ∈ Str.split "apple ball" ->
        exists l, index two_term_store !! term = Some l /\
                  d ∈ deref two_term_store l.
Proof.
  split; [exact two_term_store_wf|]. split; [by vm_compute|].
  apply (search_conjunctive two_term_store "apple ball").
  - exact two_term_store_wf.
  - by vm_compute.
Defined.

(** C2: on a query without any term, blank or empty, [search] does not
    return: [words[0]] raises [IndexError] before the length of [words] is
    looked at. *)
Theorem search_no_term_raises s query :
  Str.split query = [] ->
  (search query s).1 = Raise IndexError /\
  index (search query s).2 = index s /\
  file_titles (search query s).2 = file_titles s.
Proof. intros Hw. split_and!; by rewrite search_no_term. Qed.

Lemma search_no_term_raises_witness :
  Str.split "   " = [] /\
  (search "   " two_term_store).1 = Raise IndexError /\
  index (search "   " two_term_store).2 = index two_term_store /\
  file_titles (search "   " two_term_store).2 = file_titles two_term_store.
Proof.
  split; [reflexivity|]. apply (search_no_term_raises two_term_store "   ").
  reflexivity.
Defined.

(** C5: [find_intersection] returns a new list that holds exactly the
    documents present in both of its arguments, each of them once, in the
    order in which [list1] has them. *)
Theorem find_intersection_spec s list1 list2 a b :
  lists s !! list1 = Some a -> lists s !! list2 = Some b ->
  exists r s',
    find_intersection list1 list2 s = (Return r, s') /\
    (forall d, d ∈ deref s' r <-> d ∈ a /\ d ∈ b) /\
    NoDup (deref s' r) /\
    deref s' r `sublist_of` a.
Proof.
  intros Ha Hb.
  pose proof (lookup_lt_Some _ _ _ Ha) as H1.
  pose proof (lookup_lt_Some _ _ _ Hb) as H2.
  eexists _, _. split; [by apply find_intersection_run|].
  rewrite deref_new_list_new. unfold deref. rewrite Ha, Hb. simpl.
  unfold intersection_of. split_and!.
  - intros d. rewrite intersection_from_elem. split; [|by right].
    by intros [?%elem_of_nil|?].
  - apply intersection_from_NoDup, NoDup_nil_2.
  - destruct (intersection_from_sublist [] a b) as (r & -> & Hr). done.
Qed.

Lemma find_intersection_spec_witness :
  let s := Store [["c"; "a"; "c"; "b"]; ["b"; "c"; "c"]] ∅ ∅ in
  lists s !! 0 = Some ["c"; "a"; "c"; "b"] /\
  lists s !! 1 = Some ["b"; "c"; "c"] /\
  exists r s',
    find_intersection 0 1 s = (Return r, s') /\
    (forall d, d ∈ deref s' r <->
               d ∈ ["c"; "a"; "c"; "b"] /\ d ∈ ["b"; "c"; "c"]) /\
    NoDup (deref s' r) /\
    deref s' r `sublist_of` ["c"; "a"; "c"; "b"].
Proof.
  intros s. split; [reflexivity|]. split; [reflexivity|].
  apply (find_intersection_spec s 0 1); reflexivity.
Defined.

(** C9: [search] changes neither dictionary and no list object that exists
    when it is called, whether it returns or raises, and also in the branch
    that empties the running result: every write goes to a list that
    [search] or [find_intersection] has created. *)
Theorem search_frame s query : frame s (search query s).2.
Proof.
  destruct (search_above (length (lists s)) query s) as [Hu _]; [done|].
  destruct Hu as (Hi & Ht & Hl & _). split_and!; [done | done |].
  by rewrite Hl, firstn_all.
Qed.

(** C10: [find_intersection(l, l)] has the content of [l] when [l] lists no
    document twice; and on an index whose lists are free of duplicates, a
    query that repeats one term of the index returns what the query with
    that term alone returns. *)
Theorem find_intersection_idempotent s :
  (forall l v, lists s !! l = Some v -> NoDup v ->
     exists r s', find_intersection l l s = (Return r, s') /\
                  deref s' r = v) /\
  (forall query1 query term l n,
     wf_store s -> index_dup_free s ->
     index s !! term = Some l ->
     Str.split query1 = [term] ->
     Str.split query = replicate (S n) term ->
     exists r1 s1 r s',
       search query1 s = (Return r1, s1) /\
       search query s = (Return r, s') /\
       deref s' r = deref s1 r1 /\ deref s1 r1 = deref s l).
Proof.
  split.
  - intros l v Hl Hv. pose proof (lookup_lt_Some _ _ _ Hl) as Hlt.
    eexists _, _. split; [by apply find_intersection_run|].
    rewrite deref_new_list_new. unfold deref. rewrite Hl. simpl.
    unfold intersection_of. by rewrite (intersection_from_self [] v v).
  - intros query1 query term l n Hwf Hdf Hl H1 Hq.
    assert (entry s term = Some (deref s l)) as He.
    { unfold entry. by rewrite Hl. }
    pose proof (Hdf term l Hl) as Hnd.
    destruct (search_run s Hwf query1) as (r1 & s1 & Hr1 & _ & Hc1).
    { by rewrite H1. }
    destruct (search_run s Hwf query) as (r & s' & Hr & _ & Hc).
    { by rewrite Hq. }
    exists r1, s1, r, s'. split_and!; [done | done | |].
    + rewrite Hc, Hc1, Hq, H1.
      rewrite (search_content_repeat s term (deref s l) n) by done.
      symmetry. by apply (search_content_repeat s term (deref s l) 0).
    + rewrite Hc1, H1.
      by apply (search_content_repeat s term (deref s l) 0).
Qed.

(** ** Building the index *)

(** C3: indexing a file again after its first line has changed replaces its
    entry of [file_titles]: the guard of the assignment looks [title] up
    among the keys, which are file names, and not [file]. *)
Theorem reindex_overwrites_title :
  let s1 := (create_index old_fs ["a.txt"] empty_store).2 in
  let s2 := (create_index new_fs ["a.txt"] s1).2 in
  file_titles s1 !! "a.txt" = Some "Old Title" /\
  file_titles s2 !! "a.txt" = Some "New Title".
Proof. by vm_compute. Qed.

(** C4: the title of a file whose first line has no line feed is stored
    without its last character: [next(f)[:-1]] drops the last character
    whatever it is. *)
Theorem unterminated_title_truncated :
  Str.lines "Title" = ["Title"] /\
  let r := create_index unterminated_fs ["a.txt"] empty_store in
  r.1 = Return tt /\ file_titles r.2 !! "a.txt" = Some "Titl".
Proof. by vm_compute. Qed.

(** C6: a second call of [create_index] on the same files, unchanged, ends
    as the first call did and leaves the store that the first call left:
    the same list objects, the same [index], the same [file_titles]. *)
Theorem create_index_idempotent fs filenames s :
  wf_store s ->
  create_index fs filenames (create_index fs filenames s).2 =
  create_index fs filenames s.
Proof.
  revert s. induction filenames as [|file files IH]; intros s Hwf; [done|].
  rewrite (create_index_cons fs file files s).
  destruct (document fs file) as [[first rest]|] eqn:Hd.
  - (* the file is read: the first call leaves nothing to do for it *)
    destruct (create_index_one_grows fs file first rest s Hwf Hd)
      as (s1 & -> & He1 & Hs1).
    rewrite create_index_cons.
    rewrite (create_index_one_noop fs file first rest).
    + apply IH, He1.
    + done.
    + eapply extends_settled; [|done|done].
      apply create_index_extends, He1.
  - (* the file cannot be read: both calls raise here *)
    destruct (create_index_one_raises fs file Hd) as [e He].
    rewrite He. simpl. by rewrite create_index_cons, He.
Qed.

Lemma create_index_idempotent_witness :
  let filenames := ["test1.txt"; "test2.txt"; "test2.txt"] in
  wf_store two_term_store /\
  create_index doctest_fs filenames
    (create_index doctest_fs filenames two_term_store).2 =
  create_index doctest_fs filenames two_term_store.
Proof.
  intros filenames. split; [exact two_term_store_wf|].
  apply (create_index_idempotent doctest_fs filenames two_term_store).
  exact two_term_store_wf.
Defined.

(** C7: a file whose title is the name of a file indexed before it gets its
    terms into [index] and no entry in [file_titles]. *)
Theorem indexed_file_without_title :
  let r := create_index clash_fs ["x"; "y"] empty_store in
  r.1 = Return tt /\
  index r.2 !! "x" = Some 1 /\ deref r.2 1 = ["y"] /\
  file_titles r.2 !! "y" = None.
Proof. by vm_compute. Qed.

(** C8: [create_index] keeps every list of [index] free of duplicates,
    whatever the files hold and however often they are indexed, and also
    when it raises on the way. *)
Theorem create_index_keeps_dup_free fs filenames s :
  index_dup_free s -> index_dup_free (create_index fs filenames s).2.
Proof.
  revert s. change (preserves index_dup_free (create_index fs filenames)).
  unfold create_index. apply preserves_for_each. intros file.
  apply preserves_bind.
  { unfold open. destruct (fs !! file);
      [apply preserves_ret | apply preserves_raise]. }
  intros [|first f]; [apply preserves_raise|].
  apply preserves_bind; [by intros s|]. intros present.
  apply preserves_bind.
  { destruct present; simpl; [apply preserves_ret | by intros s]. }
  intros _. apply preserves_bind.
  - apply preserves_for_each. intros word. simpl.
    case_bool_decide; [apply add_term_dup_free | apply preserves_ret].
  - intros _. apply preserves_for_each. intros line.
    apply preserves_for_each. intros word. simpl.
    case_bool_decide; [apply add_term_dup_free | apply preserves_ret].
Qed.

Lemma create_index_keeps_dup_free_witness :
  let filenames := ["test1.txt"; "test2.txt"; "test2.txt"; "none.txt"] in
  index_dup_free two_term_store /\
  index_dup_free (create_index doctest_fs filenames two_term_store).2.
Proof.
  intros filenames. split; [exact two_term_store_dup_free|].
  apply (create_index_keeps_dup_free doctest_fs filenames two_term_store).
  exact two_term_store_dup_free.
Defined.

Lemma find_intersection_idempotent_witness :
  (lists two_term_store !! 1 = Some ["test1.txt"; "test2.txt"] /\
   NoDup ["test1.txt"; "test2.txt"] /\
   exists r s', find_intersection 1 1 two_term_store = (Return r, s') /\
                deref s' r = ["test1.txt"; "test2.txt"]) /\
  (wf_store two_term_store /\ index_dup_free two_term_store /\
   index two_term_store !! "ball" = Some 1 /\
   Str.split "ball" = ["ball"] /\
   Str.split "ball  ball ball" = replicate 3 "ball" /\
   exists r1 s1 r s',
     search "ball" two_term_store = (Return r1, s1) /\
     search "ball  ball ball" two_term_store = (Return r, s') /\
     deref s' r = deref s1 r1 /\ deref s1 r1 = deref two_term_store 1).
Proof.
  destruct (find_intersection_idempotent two_term_store) as [H1 H2].
  assert (NoDup ["test1.txt"; "test2.txt"]) as Hnd.
  { apply (bool_decide_unpack _). vm_compute. exact I. }
  split.
  - split; [reflexivity|]. split; [exact Hnd|].
    apply (H1 1 ["test1.txt"; "test2.txt"]); [reflexivity | exact Hnd].
  - split; [exact two_term_store_wf|].
    split; [exact two_term_store_dup_free|].
    split; [reflexivity|]. split; [reflexivity|]. split; [reflexivity|].
    apply (H2 "ball" "ball  ball ball" "ball" 1 2).
    + exact two_term_store_wf.
    + exact two_term_store_dup_free.
    + reflexivity.
    + reflexivity.
    + reflexivity.
Defined.

(** * More proofs *)

(** ** Words and terms *)

Section Characters.

Lemma lower_char_idemp c : Str.lower_char (Str.lower_char c) = Str.lower_char c.
Proof. by destruct c as [[] [] [] [] [] [] [] []]. Qed.

Lemma ispunct_lower_char c : Str.ispunct (Str.lower_char c) = Str.ispunct c.
Proof. by destruct c as [[] [] [] [] [] [] [] []]. Qed.

Lemma isspace_lower_char c : Str.isspace (Str.lower_char c) = Str.isspace c.
Proof. by destruct c as [[] [] [] [] [] [] [] []]. Qed.

End Characters.

Section Strip.

Variable p : ascii -> bool.

Lemma lstrip_clean_head s : clean_head p (Str.lstrip p s).
Proof.
  induction s as [|c s IH]; [done|]. simpl.
  by destruct (p c) eqn:Hc.
Qed.

Lemma lstrip_id s : clean_head p s -> Str.lstrip p s = s.
Proof. destruct s as [|c s]; [done|]. simpl. by intros ->. Qed.

Lemma lstrip_suffix s : exists w, s = w ++ Str.lstrip p s /\ Forall (fun c => p c = true) w.
Proof.
  induction s as [|c s (w & IH & Hw)]; [by exists []|]. simpl.
  destruct (p c) eqn:Hc.
  - exists (c :: w). split; [simpl; congruence | by constructor].
  - by exists [].
Qed.

Lemma clean_head_app_l a b : clean_head p (a ++ b) -> clean_head p a.
Proof. by destruct a. Qed.

Lemma lstrip_Forall (Q : ascii -> Prop) s :
  Forall Q s -> Forall Q (Str.lstrip p s).
Proof.
  induction 1 as [|c s Hc Hs IH]; [done|]. simpl.
  destruct (p c); [done | by constructor].
Qed.

Lemma strip_with_Forall (Q : ascii -> Prop) s :
  Forall Q s -> Forall Q (Str.strip_with p s).
Proof.
  intros Hs. unfold Str.strip_with.
  by apply Forall_rev, lstrip_Forall, Forall_rev, lstrip_Forall.
Qed.

(** Nothing is stripped from a list without any character to strip. *)
Lemma strip_with_none s :
  Forall (fun c => p c = false) s -> Str.strip_with p s = s.
Proof.
  intros Hs. unfold Str.strip_with.
  rewrite (lstrip_id s) by (by destruct Hs).
  rewrite lstrip_id; [apply rev_involutive|].
  apply Forall_rev in Hs. by destruct Hs.
Qed.

Lemma strip_with_clean_head s : clean_head p (Str.strip_with p s).
Proof.
  unfold Str.strip_with.
  destruct (lstrip_suffix (rev (Str.lstrip p s))) as (w & Hw & _).
  pose proof (lstrip_clean_head s) as Hh.
  rewrite <- (rev_involutive (Str.lstrip p s)), Hw, rev_app_distr in Hh.
  by apply clean_head_app_l in Hh.
Qed.

Lemma strip_with_clean_last s : clean_head p (rev (Str.strip_with p s)).
Proof.
  unfold Str.strip_with. rewrite rev_involutive. apply lstrip_clean_head.
Qed.

Lemma strip_with_idemp s :
  Str.strip_with p (Str.strip_with p s) = Str.strip_with p s.
Proof.
  unfold Str.strip_with at 1.
  rewrite (lstrip_id _ (strip_with_clean_head s)).
  rewrite (lstrip_id _ (strip_with_clean_last s)).
  apply rev_involutive.
Qed.

(** What is stripped off is a run of characters to strip at each end. *)
Lemma strip_with_middle s :
  exists a b, s = a ++ Str.strip_with p s ++ b /\
              Forall (fun c => p c = true) a /\ Forall (fun c => p c = true) b.
Proof.
  unfold Str.strip_with.
  destruct (lstrip_suffix s) as (a & Ha & Hpa).
  destruct (lstrip_suffix (rev (Str.lstrip p s))) as (b & Hb & Hpb).
  exists a, (rev b). split_and!; [|done | by apply Forall_rev].
  rewrite Ha at 1. f_equal.
  rewrite <- (rev_involutive (Str.lstrip p s)) at 1.
  rewrite Hb at 1. by rewrite rev_app_distr.
Qed.

End Strip.

Lemma rev_fmap {A B} (f : A -> B) (l : list A) : rev (f <$> l) = f <$> rev l.
Proof.
  induction l as [|x l IH]; [done|].
  rewrite fmap_cons. cbn [rev]. by rewrite IH, fmap_app.
Qed.

Lemma lstrip_fmap p (f : ascii -> ascii) s :
  (forall c, p (f c) = p c) ->
  Str.lstrip p (f <$> s) = f <$> Str.lstrip p s.
Proof.
  intros Hf. induction s as [|c s IH]; [done|]. simpl.
  rewrite Hf. by destruct (p c).
Qed.

Lemma strip_with_fmap p (f : ascii -> ascii) s :
  (forall c, p (f c) = p c) ->
  Str.strip_with p (f <$> s) = f <$> Str.strip_with p s.
Proof.
  intros Hf. unfold Str.strip_with.
  by rewrite lstrip_fmap, rev_fmap, lstrip_fmap, rev_fmap.
Qed.

Section Split.

Lemma split_go_words s : forall cur,
  Forall (fun c => Str.isspace c = false) cur ->
  Forall is_word (Str.split_go cur s).
Proof.
  induction s as [|c s IH]; intros cur Hcur; cbn [Str.split_go].
  - destruct cur as [|c' cur]; [done|]. constructor; [|done]. split.
    + intros Hr. apply (f_equal (@length ascii)) in Hr.
      rewrite length_rev in Hr. done.
    + by apply Forall_rev.
  - destruct (Str.isspace c) eqn:Hc.
    + destruct cur as [|c' cur]; [by apply IH|].
      constructor; [|by apply IH]. split.
      * intros Hr. apply (f_equal (@length ascii)) in Hr.
        rewrite length_rev in Hr. done.
      * by apply Forall_rev.
    + apply IH. by constructor.
Qed.

(** Whitespace after the last word yields nothing. *)
Lemma split_go_spaces ws : forall cur,
  Forall (fun c => Str.isspace c = true) ws ->
  Str.split_go cur ws = Str.split_go cur [].
Proof.
  induction ws as [|c ws IH]; intros cur Hws; [done|].
  apply Forall_cons in Hws as [Hc Hws]. cbn [Str.split_go]. rewrite Hc.
  destruct cur; rewrite IH by done; done.
Qed.

Lemma split_go_app_spaces s ws : forall cur,
  Forall (fun c => Str.isspace c = true) ws ->
  Str.split_go cur (s ++ ws) = Str.split_go cur s.
Proof.
  induction s as [|c s IH]; intros cur Hws.
  - by apply split_go_spaces.
  - cbn [app Str.split_go].
    destruct (Str.isspace c); [destruct cur|]; by rewrite IH.
Qed.

Lemma split_go_skip_spaces a x :
  Forall (fun c => Str.isspace c = true) a ->
  Str.split_go [] (a ++ x) = Str.split_go [] x.
Proof.
  induction 1 as [|c a Hc Ha IH]; [done|].
  cbn [app Str.split_go]. by rewrite Hc.
Qed.

Lemma split_go_strip s :
  Str.split_go [] (Str.strip_with Str.isspace s) = Str.split_go [] s.
Proof.
  destruct (strip_with_middle Str.isspace s) as (a & b & Hs & Ha & Hb).
  rewrite Hs at 2.
  by rewrite split_go_skip_spaces, split_go_app_spaces.
Qed.

End Split.

(** ** Invariants of [create_index], in general *)

Lemma chars_of_chars l : Str.chars (Str.of_chars l) = l.
Proof. apply list_ascii_of_string_of_list_ascii. Qed.

Lemma of_chars_chars s : Str.of_chars (Str.chars s) = s.
Proof. apply string_of_list_ascii_of_string. Qed.

Lemma preserves_for_each_elem {A} I (xs : list A) body :
  (forall x, x ∈ xs -> preserves I (body x)) -> preserves I (for_each xs body).
Proof.
  induction xs as [|x xs IH]; intros Hb; [by intros s|].
  rewrite for_each_cons. apply preserves_bind; [apply Hb; left|].
  intros _. apply IH. intros y Hy. apply Hb. by right.
Qed.

Section Invariant.

Variable fs : filesystem.
Variable I : store -> Prop.

Lemma words_loop_preserves file words :
  (forall word, word ∈ words -> clean_word word <> EmptyString ->
     preserves I (add_term_to_index (clean_word word) file)) ->
  preserves I (for_each words (fun word =>
    if bool_decide (clean_word word <> EmptyString)
    then add_term_to_index (clean_word word) file
    else ret tt)).
Proof.
  intros Hadd. apply preserves_for_each_elem. intros word Hin.
  case_bool_decide; [by apply Hadd | apply preserves_ret].
Qed.

(** [create_index] does nothing to the store but assign to [file_titles] the
    title of a file of [filenames], and call [add_term_to_index] with a term
    and a file of [filenames] in which the term occurs: what these two keep,
    it keeps, whether it returns or raises. *)
Lemma create_index_invariant filenames :
  (forall file first rest, file ∈ filenames ->
     document fs file = Some (first, rest) ->
     forall s, I s ->
       I (set_file_titles (insert file (Str.drop_last first)) s)) ->
  (forall file term, file ∈ filenames -> occurs fs term file ->
     preserves I (add_term_to_index term file)) ->
  preserves I (create_index fs filenames).
Proof.
  induction filenames as [|file files IH]; intros Htitle Hadd s Hs; [done|].
  rewrite create_index_cons.
  destruct (document fs file) as [[first rest]|] eqn:Hd.
  - rewrite (create_index_one fs file first rest s Hd). cbv zeta.
    set (s1 := if decide (is_Some (file_titles s !! Str.drop_last first))
               then s
               else set_file_titles (insert file (Str.drop_last first)) s).
    assert (I s1) as Hs1.
    { unfold s1. case_decide; [done|]. eapply Htitle; [left | done | done]. }
    assert (preserves I
      (for_each (make_list_of_words (Str.drop_last first)) (fun word =>
         if bool_decide (clean_word word <> EmptyString)
         then add_term_to_index (clean_word word) file
         else ret tt) ;;
       for_each rest (fun line =>
         for_each (make_list_of_words line) (fun word =>
           if bool_decide (clean_word word <> EmptyString)
           then add_term_to_index (clean_word word) file
           else ret tt)))) as Hloops.
    { apply preserves_bind.
      - apply words_loop_preserves. intros word Hw Hc.
        apply Hadd; [left|].
        exists first, rest, (Str.drop_last first), word.
        split_and!; [done | left | done | done | done].
      - intros _. apply preserves_for_each_elem. intros line Hl.
        apply words_loop_preserves. intros word Hw Hc.
        apply Hadd; [left|].
        exists first, rest, line, word.
        split_and!; [done | by right | done | done | done]. }
    specialize (Hloops s1 Hs1).
    match goal with
    | H : I (?m s1).2 |- _ => destruct (m s1) as [[[]|e] s2]
    end; simpl in Hloops; [|done].
    apply IH; [| |done].
    + intros f fi re Hf. apply Htitle. by right.
    + intros f t Hf. apply Hadd. by right.
  - destruct (create_index_one_raises fs file Hd) as [e ->]. done.
Qed.

End Invariant.

(** ** What [add_term_to_index] changes *)

Section AddTerm.

Lemma add_term_file_titles term file s :
  file_titles (add_term_to_index term file s).2 = file_titles s.
Proof.
  destruct (index s !! term) as [l|] eqn:Hl.
  - rewrite (add_term_present term file s l Hl). simpl. by case_decide.
  - by rewrite (add_term_absent term file s Hl).
Qed.

(** After [add_term_to_index], [file] is under [term], and nothing else is
    new in an index whose terms do not share their lists. *)
Lemma add_term_has term file s term' file' :
  wf_store s -> index_inj s ->
  has (add_term_to_index term file s).2 term' file' <->
  has s term' file' \/ (term' = term /\ file' = file).
Proof.
  intros Hwf Hinj. destruct (index s !! term) as [l|] eqn:Hl.
  - rewrite (add_term_present term file s l Hl). simpl.
    pose proof (Hwf term l Hl) as Hlt. simpl in Hlt.
    destruct (decide (file ∈ deref s l)) as [Hin|Hnin].
    + split; [by left|]. intros [?|[-> ->]]; [done | by exists l].
    + split.
      * intros (l' & Hl' & Hin). simpl in Hl'.
        destruct (decide (l = l')) as [<-|Hne].
        -- rewrite deref_alter in Hin by done.
           apply elem_of_app in Hin as [Hin| ->%list_elem_of_singleton].
           ++ left. by exists l.
           ++ right. split; [|done]. by eapply Hinj.
        -- rewrite deref_alter_ne in Hin by done. left. by exists l'.
      * intros [(l' & Hl' & Hin)|[-> ->]].
        -- exists l'. split; [done|].
           destruct (decide (l = l')) as [<-|Hne].
           ++ rewrite deref_alter by done. set_solver.
           ++ by rewrite deref_alter_ne.
        -- exists l. split; [done|]. rewrite deref_alter by done. set_solver.
  - rewrite (add_term_absent term file s Hl). simpl. split.
    + intros (l' & Hl' & Hin). simpl in Hl'. unfold deref in Hin. simpl in Hin.
      destruct (decide (term = term')) as [<-|Hne].
      * rewrite lookup_insert_eq in Hl'. injection Hl' as <-.
        rewrite list_lookup_middle in Hin by done. simpl in Hin.
        apply list_elem_of_singleton in Hin. by right.
      * rewrite lookup_insert_ne in Hl' by done.
        pose proof (Hwf term' l' Hl') as Hlt. simpl in Hlt.
        rewrite lookup_app_l in Hin by done. left. by exists l'.
    + intros [Hhas|[-> ->]].
      * destruct (has_allocated _ _ _ Hhas) as (l' & v & Hl' & Hv & Hin).
        exists l'. simpl. split.
        -- rewrite lookup_insert_ne; [done|]. congruence.
        -- unfold deref. simpl.
           rewrite lookup_app_l by (by eapply lookup_lt_Some).
           by rewrite Hv.
      * exists (length (lists s)). simpl. split; [apply lookup_insert_eq|].
        unfold deref. simpl. rewrite list_lookup_middle by done.
        simpl. set_solver.
Qed.

Lemma add_term_wf term file s :
  wf_store s -> wf_store (add_term_to_index term file s).2.
Proof.
  intros Hwf. destruct (add_term_grows term file s Hwf) as (s' & -> & Hg & _).
  apply Hg.
Qed.

Lemma add_term_inj term file s :
  wf_store s -> index_inj s -> index_inj (add_term_to_index term file s).2.
Proof.
  intros Hwf Hinj. destruct (index s !! term) as [l|] eqn:Hl.
  - rewrite (add_term_present term file s l Hl). simpl. by case_decide.
  - rewrite (add_term_absent term file s Hl). simpl.
    intros t1 t2 l' H1 H2. simpl in *.
    destruct (decide (term = t1)) as [<-|Hne1];
      destruct (decide (term = t2)) as [<-|Hne2]; [done | | |].
    + rewrite lookup_insert_eq in H1. injection H1 as <-.
      rewrite lookup_insert_ne in H2 by done.
      pose proof (Hwf t2 _ H2) as Hlt. simpl in Hlt. lia.
    + rewrite lookup_insert_eq in H2. injection H2 as <-.
      rewrite lookup_insert_ne in H1 by done.
      pose proof (Hwf t1 _ H1) as Hlt. simpl in Hlt. lia.
    + rewrite lookup_insert_ne in H1, H2 by done. by eapply Hinj.
Qed.

End AddTerm.

(** ** Words and terms, as strings *)

Section Words.

Lemma split_words s word :
  word ∈ Str.split s -> word <> EmptyString /\ no_space word.
Proof.
  unfold Str.split. intros (w & -> & Hw)%list_elem_of_fmap.
  pose proof (split_go_words (Str.chars s) [] (Forall_nil_2 _)) as Hall.
  rewrite Forall_forall in Hall. destruct (Hall w Hw) as [Hne Hsp].
  split.
  - intros He. apply (f_equal Str.chars) in He.
    by rewrite chars_of_chars in He.
  - unfold no_space. by rewrite chars_of_chars.
Qed.

Lemma make_list_of_words_eq line : make_list_of_words line = Str.split line.
Proof.
  unfold make_list_of_words, Str.split, Str.strip.
  by rewrite chars_of_chars, split_go_strip.
Qed.

Lemma strip_no_space w : no_space w -> Str.strip w = w.
Proof.
  intros Hw. unfold Str.strip. rewrite strip_with_none by done.
  apply of_chars_chars.
Qed.

Lemma lower_strip w : Str.lower (Str.strip w) = Str.strip (Str.lower w).
Proof.
  unfold Str.lower, Str.strip. rewrite !chars_of_chars.
  by rewrite strip_with_fmap by apply isspace_lower_char.
Qed.

Lemma lower_strip_punctuation w :
  Str.lower (Str.strip_punctuation w) = Str.strip_punctuation (Str.lower w).
Proof.
  unfold Str.lower, Str.strip_punctuation. rewrite !chars_of_chars.
  by rewrite strip_with_fmap by apply ispunct_lower_char.
Qed.

Lemma lower_idemp w : Str.lower (Str.lower w) = Str.lower w.
Proof.
  unfold Str.lower. rewrite chars_of_chars, <- list_fmap_compose.
  f_equal. apply list_fmap_ext. intros _ c _. apply lower_char_idemp.
Qed.

Lemma clean_word_no_space word :
  no_space word ->
  clean_word word = Str.strip_punctuation (Str.lower word).
Proof. intros Hw. unfold clean_word. by rewrite (strip_no_space word Hw). Qed.

Lemma clean_word_fixed word :
  no_space word ->
  clean_word (clean_word word) = clean_word word /\
  Str.lower (clean_word word) = clean_word word /\
  Str.strip_punctuation (clean_word word) = clean_word word /\
  no_space (clean_word word).
Proof.
  intros Hw. rewrite (clean_word_no_space word Hw).
  set (t := Str.strip_punctuation (Str.lower word)).
  assert (no_space t) as Hsp.
  { unfold t, no_space, Str.strip_punctuation, Str.lower.
    rewrite !chars_of_chars. apply strip_with_Forall, Forall_fmap.
    eapply Forall_impl; [exact Hw|]. intros c Hc. simpl.
    by rewrite isspace_lower_char. }
  assert (Str.lower t = t) as Hlow.
  { unfold t. by rewrite lower_strip_punctuation, lower_idemp. }
  assert (Str.strip_punctuation t = t) as Hpun.
  { unfold t, Str.strip_punctuation. rewrite chars_of_chars.
    by rewrite strip_with_idemp. }
  split_and!; [|done..].
  by rewrite (clean_word_no_space t Hsp), Hlow, Hpun.
Qed.

End Words.

(** ** What [create_index] puts into the index *)

Section IndexContent.

Variable fs : filesystem.

Lemma empty_store_wf : wf_store empty_store.
Proof. apply map_Forall_empty. Qed.

Lemma empty_store_sound filenames : index_sound fs filenames empty_store.
Proof.
  split_and!.
  - apply empty_store_wf.
  - intros t1 t2 l Hl. by destruct (lookup_empty_Some (M := gmap string) t1 l).
  - intros term file (l & Hl & _).
    by destruct (lookup_empty_Some (M := gmap string) term l).
Qed.

Lemma create_index_keeps_sound filenames :
  preserves (index_sound fs filenames) (create_index fs filenames).
Proof.
  apply create_index_invariant.
  - intros file first rest _ _ s Hs. exact Hs.
  - intros file term Hf Ho s (Hwf & Hinj & Hs). split_and!.
    + by apply add_term_wf.
    + by apply add_term_inj.
    + intros term' file'. rewrite add_term_has by done.
      intros [Hhas|[-> ->]]; [by apply Hs | done].
Qed.

Lemma create_index_settles filenames : forall s,
  wf_store s -> (create_index fs filenames s).1 = Return tt ->
  forall file, file ∈ filenames ->
    exists first rest,
      document fs file = Some (first, rest) /\
      settled (create_index fs filenames s).2 file first rest.
Proof.
  induction filenames as [|file files IH]; intros s Hwf Hret f Hf.
  { by apply elem_of_nil in Hf. }
  rewrite create_index_cons in Hret |- *.
  destruct (document fs file) as [[first rest]|] eqn:Hd.
  - destruct (create_index_one_grows fs file first rest s Hwf Hd)
      as (s1 & Hrun & He1 & Hs1).
    rewrite Hrun in Hret |- *.
    apply elem_of_cons in Hf as [->|Hf].
    + exists first, rest. split; [done|].
      eapply extends_settled; [|done|done].
      apply create_index_extends, He1.
    + apply IH; [apply He1 | done | done].
  - destruct (create_index_one_raises fs file Hd) as [e He].
    by rewrite He in Hret.
Qed.

Lemma settled_has s file first rest term :
  document fs file = Some (first, rest) ->
  settled s file first rest -> occurs fs term file -> has s term file.
Proof.
  intros Hd (_ & Hfirst & Hrest) (fi & re & line & word & Hd' & Hl & Hw & <- & Hc).
  rewrite Hd in Hd'. injection Hd' as <- <-.
  apply elem_of_cons in Hl as [->|Hl].
  - by apply Hfirst.
  - by apply (Hrest line).
Qed.

(** After a call that returns, from a sound index: [file] is under [term]
    exactly when it is one of [filenames] and [term] occurs in it. *)
Lemma create_index_has_iff filenames s term file :
  index_sound fs filenames s ->
  (create_index fs filenames s).1 = Return tt ->
  has (create_index fs filenames s).2 term file <->
  file ∈ filenames /\ occurs fs term file.
Proof.
  intros Hs Hret. split.
  - by apply (create_index_keeps_sound filenames s Hs).
  - intros [Hf Ho].
    destruct (create_index_settles filenames s (proj1 Hs) Hret file Hf)
      as (first & rest & Hd & Hset).
    by eapply settled_has.
Qed.

Lemma occurs_clean term file :
  occurs fs term file -> term <> EmptyString /\ clean_word term = term.
Proof.
  intros (first & rest & line & word & _ & _ & Hw & <- & Hc).
  split; [done|]. rewrite make_list_of_words_eq in Hw.
  apply split_words in Hw as [_ Hsp]. by apply clean_word_fixed.
Qed.

End IndexContent.

(** ** When [create_index] raises *)

Section Outcome.

Variable fs : filesystem.







Lemma for_each_app_run {A} (xs ys : list A) body : forall s,
  for_each (xs ++ ys) body s =
    match for_each xs body s with
    | (Return _, s') => for_each ys body s'
    | (Raise e, s') => (Raise e, s')
    end.
Proof.
  induction xs as [|x xs IH]; intros s; [done|].
  cbn [app for_each]. rewrite !bind_run.
  destruct (body x s) as [[[]|e] s1]; [apply IH | done].
Qed.

End Outcome.

(** ** More on the content that [search] returns *)

Section MoreSearch.

Lemma intersection_from_filter acc a b :
  NoDup (acc ++ a) ->
  intersection_from acc a b = acc ++ filter (fun x => x ∈ b) a.
Proof.
  revert acc. induction a as [|y a IH]; intros acc Hnd.
  - by rewrite app_nil_r.
  - rewrite intersection_from_cons.
    apply NoDup_app in Hnd as (Hacc & Hdisj & Ha).
    assert (NoDup ((acc ++ [y]) ++ a)) as Hnd'.
    { rewrite <- app_assoc. simpl.
      apply NoDup_app. split_and!; [done | exact Hdisj | exact Ha]. }
    destruct (decide (y ∈ b)) as [Hb|Hb].
    + rewrite decide_False by (intros Hin; apply (Hdisj y Hin); left).
      rewrite filter_cons_True by done.
      rewrite IH by done. by rewrite <- app_assoc.
    + rewrite filter_cons_False by done. apply IH.
      apply NoDup_app. split_and!; [done | | by apply NoDup_cons_1_2 in Ha].
      intros x Hx Hin. apply (Hdisj x Hx). by right.
Qed.

Lemma intersection_of_NoDup a b : NoDup (intersection_of a b).
Proof. apply intersection_from_NoDup, NoDup_nil_2. Qed.

Lemma intersection_of_sublist a b : intersection_of a b `sublist_of` a.
Proof.
  unfold intersection_of.
  by destruct (intersection_from_sublist [] a b) as (r & -> & Hr).
Qed.

Variable s : store.

Lemma search_step_NoDup acc term : NoDup (search_step s acc term).
Proof.
  unfold search_step. destruct (entry s term);
    [apply intersection_of_NoDup | apply NoDup_nil_2].
Qed.

Lemma search_step_sublist acc term : search_step s acc term `sublist_of` acc.
Proof.
  unfold search_step. destruct (entry s term);
    [apply intersection_of_sublist | apply sublist_nil_l].
Qed.

Lemma search_fold_NoDup rest : forall acc,
  NoDup acc -> NoDup (foldl (search_step s) acc rest).
Proof.
  induction rest as [|t rest IH]; intros acc Hacc; [done|].
  cbn [foldl]. apply IH, search_step_NoDup.
Qed.

Lemma search_fold_sublist rest : forall acc,
  foldl (search_step s) acc rest `sublist_of` acc.
Proof.
  induction rest as [|t rest IH]; intros acc; [done|].
  cbn [foldl]. etrans; [apply IH | apply search_step_sublist].
Qed.

Lemma entry_NoDup term :
  index_dup_free s -> NoDup (default [] (entry s term)).
Proof.
  intros Hdf. unfold entry.
  destruct (index s !! term) as [l|] eqn:Hl; [|apply NoDup_nil_2].
  by apply (Hdf term l).
Qed.

Lemma search_content_NoDup words :
  index_dup_free s -> NoDup (search_content s words).
Proof.
  intros Hdf. destruct words as [|first rest]; [apply NoDup_nil_2|].
  by apply search_fold_NoDup, entry_NoDup.
Qed.

Lemma search_content_sublist first rest :
  search_content s (first :: rest) `sublist_of` default [] (entry s first).
Proof. apply search_fold_sublist. Qed.

Lemma search_content_unknown words term :
  term ∈ words -> entry s term = None -> search_content s words = [].
Proof.
  intros Hin Hnone. apply elem_of_nil_inv. intros d Hd.
  assert (words <> []) as Hne by (intros ->; by apply elem_of_nil in Hin).
  rewrite (search_content_elem s words d Hne) in Hd.
  destruct (Hd term Hin) as (v & Hv & _). congruence.
Qed.

End MoreSearch.

(** ** [textfiles_in_dir] *)

Section TextFiles.

Lemma chars_append a b : Str.chars (a +:+ b) = Str.chars a ++ Str.chars b.
Proof. induction a as [|c a IH]; [done|]. simpl. by rewrite <- IH. Qed.

Lemma chars_inj a b : Str.chars a = Str.chars b -> a = b.
Proof.
  intros H. by rewrite <- (of_chars_chars a), <- (of_chars_chars b), H.
Qed.

(** The path that [path_join] returns ends with its second argument. *)
Lemma path_join_suffix a b : Str.chars b `suffix_of` Str.chars (path_join a b).
Proof.
  unfold path_join. destruct (str_startswith b "/"); [done|].
  destruct (bool_decide (a = EmptyString) || str_endswith a "/").
  - rewrite chars_append. by apply suffix_app_r.
  - rewrite !chars_append. by apply suffix_app_r, suffix_app_r.
Qed.

(** For a relative [b], the path is [b] after a prefix that [a] fixes. *)
Lemma path_join_relative a b :
  str_startswith b "/" = false ->
  exists a', forall b', str_startswith b' "/" = false ->
    Str.chars (path_join a b') = a' ++ Str.chars b'.
Proof.
  intros _.
  exists (if bool_decide (a = EmptyString) || str_endswith a "/"
          then Str.chars a else Str.chars a ++ Str.chars "/").
  intros b' Hb'. unfold path_join. rewrite Hb'.
  destruct (bool_decide (a = EmptyString) || str_endswith a "/").
  - by rewrite chars_append.
  - by rewrite !chars_append, app_assoc.
Qed.

Lemma textfiles_loop directory entries : forall acc,
  foldl (fun filenames filename =>
           if str_endswith filename ".txt"
           then filenames ++ [path_join directory filename]
           else filenames) acc entries =
  acc ++ (path_join directory <$>
            filter (fun f => str_endswith f ".txt" = true) entries).
Proof.
  induction entries as [|e entries IH]; intros acc; cbn [foldl].
  - by rewrite app_nil_r.
  - rewrite IH. destruct (str_endswith e ".txt") eqn:He.
    + rewrite filter_cons_True by done. by rewrite <- app_assoc.
    + by rewrite filter_cons_False by (by rewrite He).
Qed.

End TextFiles.

(** ** Running [do_searches] *)

Section RunIO.

Context {A B : Type}.

Lemma io_bind_run (m : IO A) (k : A -> IO B) w :
  io_bind m k w =
    match m w with
    | (Returned a, w') => k a w'
    | (Raised e, w') => (Raised e, w')
    end.
Proof. reflexivity. Qed.

Lemma io_bind_ext (m : IO A) (k1 k2 : A -> IO B) w :
  (forall a w', k1 a w' = k2 a w') -> io_bind m k1 w = io_bind m k2 w.
Proof.
  intros Hk. rewrite !io_bind_run. by destruct (m w) as [[a|e] w'].
Qed.

Lemma lift_run (m : M A) s out :
  lift m (s, out) =
    match m s with
    | (Return a, s') => (Returned a, (s', out))
    | (Raise e, s') => (Raised (Exn e), (s', out))
    end.
Proof. reflexivity. Qed.

End RunIO.

Lemma write_run text s out :
  write text (s, out) = (Returned tt, (s, out ++ [text])).
Proof. reflexivity. Qed.

Lemma print_run line s out :
  print line (s, out) = (Returned tt, (s, out ++ [line +:+ LF])).
Proof. reflexivity. Qed.

Lemma list_getitem_run l i x s :
  deref s l !! i = Some x -> list_getitem l i s = (Return x, s).
Proof. intros H. unfold list_getitem. by rewrite H. Qed.

Lemma file_titles_getitem_run file title s :
  file_titles s !! file = Some title ->
  file_titles_getitem file s = (Return title, s).
Proof. intros H. unfold file_titles_getitem. by rewrite H. Qed.

Lemma do_searches_cons line typed :
  do_searches (line :: typed) =
  (write prompt ;;; query_round line (do_searches typed)).
Proof. reflexivity. Qed.

Section Rounds.

(** The rest of the loop matters to a turn only through what it does. *)
Lemma query_round_ext line (again1 again2 : IO unit) w :
  (forall w', again1 w' = again2 w') ->
  query_round line again1 w = query_round line again2 w.
Proof.
  intros Hk. unfold query_round. cbv zeta. case_bool_decide; [done|].
  apply io_bind_ext. intros results w1.
  apply io_bind_ext. intros _ w2.
  apply io_bind_ext. intros nonempty w3.
  apply io_bind_ext. intros _ w4. apply Hk.
Qed.

Lemma query_round_lower line again w :
  query_round (Str.lower line) again w = query_round line again w.
Proof. unfold query_round. cbv zeta. by rewrite lower_idemp. Qed.

(** The loop over the results, from its [k]-th turn. *)
Lemma print_loop s r rest : forall k out,
  drop k (deref s r) = rest ->
  (forall file, file ∈ rest -> is_Some (file_titles s !! file)) ->
  io_for_each (seq k (length rest)) (fun i =>
    file <- lift (list_getitem r i) ;;;
    title <- lift (file_titles_getitem file) ;;;
    file' <- lift (list_getitem r i) ;;;
    print (pretty (i + 1) +:+ ".  Title: " +:+ title
           +:+ ",  File: " +:+ file')) (s, out)
  = (Returned tt, (s, out ++ result_lines s k rest)).
Proof.
  induction rest as [|file rest IH]; intros k out Hd Ht.
  - simpl. by rewrite app_nil_r.
  - apply drop_head in Hd as [Hk Hd].
    destruct (Ht file) as [title Htitle]; [left|].
    cbn [length seq io_for_each result_lines].
    rewrite io_bind_run, io_bind_run, lift_run.
    rewrite (list_getitem_run r k file s Hk).
    rewrite io_bind_run, lift_run.
    rewrite (file_titles_getitem_run file title s Htitle).
    rewrite io_bind_run, lift_run.
    rewrite (list_getitem_run r k file s Hk).
    rewrite print_run, Htitle. simpl default.
    rewrite IH; [|done|].
    + by rewrite <- app_assoc.
    + intros f Hf. apply Ht. by right.
Qed.

Lemma frame_wf s s' : wf_store s -> frame s s' -> wf_store s'.
Proof.
  intros Hwf Hf term l Hl. simpl.
  pose proof (frame_length _ _ Hf) as Hlen.
  destruct Hf as (Hi & _). rewrite Hi in Hl.
  pose proof (Hwf term l Hl) as Hlt. simpl in Hlt. lia.
Qed.

Lemma frame_cover s s' :
  wf_store s -> titles_cover s -> frame s s' -> titles_cover s'.
Proof.
  intros Hwf Hc Hf term l Hl. simpl.
  pose proof Hf as (Hi & Ht & _). rewrite Hi in Hl. rewrite Ht.
  rewrite (frame_deref s s' l Hf) by (by apply (Hwf term)).
  by apply (Hc term).
Qed.

Lemma frame_trans s1 s2 s3 : frame s1 s2 -> frame s2 s3 -> frame s1 s3.
Proof.
  intros H12 H23. pose proof (frame_length _ _ H12) as Hlen.
  destruct H12 as (Hi1 & Ht1 & Hl1). destruct H23 as (Hi2 & Ht2 & Hl2).
  split_and!; [congruence | congruence |].
  assert (take (length (lists s1)) (lists s3) =
          take (length (lists s1)) (take (length (lists s2)) (lists s3)))
    as Ht by (rewrite take_take; f_equal; lia).
  by rewrite Ht, Hl2.
Qed.

(** A turn on a query with a term at least, when every file of the index
    has a title: it prints the header and the results, and goes on. *)
Lemma query_round_run line s out :
  wf_store s -> titles_cover s -> Str.split (Str.lower line) <> [] ->
  exists r s',
    search (Str.lower line) s = (Return r, s') /\
    frame s s' /\
    deref s' r = search_content s (Str.split (Str.lower line)) /\
    forall again,
      query_round line again (s, out) =
        again (s', out ++ round_output s' (Str.lower line) (deref s' r)).
Proof.
  intros Hwf Hc Hne.
  destruct (search_run s Hwf (Str.lower line) Hne) as (r & s' & Hrun & Hf & Hr).
  exists r, s'. split_and!; [done..|].
  assert (forall file, file ∈ deref s' r -> is_Some (file_titles s' !! file))
    as Htitles.
  { intros file Hin. rewrite Hr in Hin.
    destruct (Str.split (Str.lower line)) as [|first rest] eqn:Hw; [done|].
    apply (fun H => elem_of_sublist _ _ _ H
                      (search_content_sublist s first rest)) in Hin.
    unfold entry in Hin. destruct (index s !! first) as [l|] eqn:Hl;
      [|by apply elem_of_nil in Hin].
    destruct Hf as (_ & -> & _).
    pose proof (Hc first l Hl) as Hall. simpl in Hall.
    rewrite Forall_forall in Hall. by apply Hall. }
  intros again. unfold query_round. cbv zeta.
  rewrite bool_decide_eq_false_2
    by (intros He; rewrite He in Hne; by apply Hne).
  rewrite io_bind_run, lift_run, Hrun.
  rewrite io_bind_run, print_run.
  rewrite io_bind_run, lift_run. unfold list_truth at 1.
  rewrite io_bind_run. unfold round_output.
  destruct (deref s' r) as [|file files] eqn:Hd.
  - rewrite bool_decide_eq_true_2 by done. cbn [negb].
    rewrite print_run. by rewrite <- app_assoc.
  - rewrite bool_decide_eq_false_2 by done. cbn [negb].
    rewrite io_bind_run, lift_run, list_len_run. rewrite Hd.
    rewrite (print_loop s' r (file :: files) 0); [|by rewrite Hd|].
    + by rewrite <- app_assoc.
    + intros f Hfin. by apply Htitles.
Qed.

End Rounds.

(** ** What [do_searches] writes to *)

Section IOAbove.

Variable n : nat.

Lemma io_above_ret {A} (a : A) : io_above n (io_ret a).
Proof. intros s out Hn. by apply untouched_refl. Qed.

Lemma io_above_raise {A} e : io_above n (io_raise (A := A) e).
Proof. intros s out Hn. by apply untouched_refl. Qed.

Lemma io_above_write text : io_above n (write text).
Proof. intros s out Hn. by apply untouched_refl. Qed.

Lemma io_above_lift {A} (m : M A) P : above n m P -> io_above n (lift m).
Proof.
  intros Hm s out Hn. rewrite lift_run. destruct (Hm s Hn) as [Hu _].
  by destruct (m s) as [[a|e] s'].
Qed.

Lemma io_above_bind {A B} (m : IO A) (k : A -> IO B) :
  io_above n m -> (forall a, io_above n (k a)) -> io_above n (io_bind m k).
Proof.
  intros Hm Hk s out Hn. rewrite io_bind_run. specialize (Hm s out Hn).
  destruct (m (s, out)) as [[a|e] [s1 out1]]; simpl in *; [|done].
  eapply untouched_trans; [done|]. apply Hk, Hm.
Qed.

Lemma io_above_for_each {A} (xs : list A) body :
  (forall x, io_above n (body x)) -> io_above n (io_for_each xs body).
Proof.
  intros Hb. induction xs as [|x xs IH]; [apply io_above_ret|].
  cbn [io_for_each]. by apply io_above_bind.
Qed.

Lemma above_file_titles_getitem file :
  above n (file_titles_getitem file) (fun _ => True).
Proof.
  apply above_pure. intros s. unfold file_titles_getitem.
  by destruct (file_titles s !! file).
Qed.

Lemma query_round_above line again :
  io_above n again -> io_above n (query_round line again).
Proof.
  intros Hagain. unfold query_round. cbv zeta.
  case_bool_decide; [apply io_above_ret|].
  apply io_above_bind; [eapply io_above_lift, search_above|]. intros results.
  apply io_above_bind; [apply io_above_write|]. intros _.
  apply io_above_bind; [eapply io_above_lift; by apply above_pure|].
  intros nonempty. apply io_above_bind; [|done].
  destruct nonempty; [|apply io_above_write].
  apply io_above_bind; [eapply io_above_lift; by apply above_pure|].
  intros len. apply io_above_for_each. intros i.
  apply io_above_bind; [eapply io_above_lift, above_list_getitem|].
  intros file.
  apply io_above_bind; [eapply io_above_lift, above_file_titles_getitem|].
  intros title.
  apply io_above_bind; [eapply io_above_lift, above_list_getitem|].
  intros file'. apply io_above_write.
Qed.

Lemma do_searches_above typed : io_above n (do_searches typed).
Proof.
  induction typed as [|line typed IH]; cbn [do_searches].
  - apply io_above_bind; [apply io_above_write|]. intros _.
    apply io_above_raise.
  - apply io_above_bind; [apply io_above_write|]. intros _.
    by apply query_round_above.
Qed.

End IOAbove.

(** ** A word as a query *)

Section WordQuery.

Lemma split_go_no_space w : forall cur,
  Forall (fun c => Str.isspace c = false) w ->
  Str.split_go cur w =
    match rev cur ++ w with
    | [] => []
    | c :: x => [c :: x]
    end.
Proof.
  induction w as [|c w IH]; intros cur Hw; cbn [Str.split_go].
  - rewrite app_nil_r. destruct cur as [|c' cur]; [done|].
    destruct (rev (c' :: cur)) as [|y x] eqn:Hr; [|done].
    apply (f_equal (@length ascii)) in Hr. rewrite length_rev in Hr. done.
  - apply Forall_cons in Hw as [Hc Hw]. rewrite Hc, IH by done.
    cbn [rev]. by rewrite <- app_assoc.
Qed.

(** A word is the only word of itself. *)
Lemma split_word word :
  word <> EmptyString -> no_space word -> Str.split word = [word].
Proof.
  intros Hne Hsp. unfold Str.split.
  rewrite split_go_no_space by done. cbn [rev app].
  destruct (Str.chars word) as [|c x] eqn:Hc.
  - destruct Hne. apply chars_inj. by rewrite Hc.
  - cbn [fmap list_fmap]. f_equal. apply chars_inj.
    by rewrite chars_of_chars.
Qed.

End WordQuery.

(** ** The turns of [do_searches] *)

Section Turns.

Lemma result_lines_titles s s' files : forall k,
  file_titles s' = file_titles s ->
  result_lines s' k files = result_lines s k files.
Proof.
  induction files as [|file files IH]; intros k Ht; [done|].
  cbn [result_lines]. by rewrite Ht, IH.
Qed.

Lemma round_output_titles s s' query files :
  file_titles s' = file_titles s ->
  round_output s' query files = round_output s query files.
Proof.
  intros Ht. unfold round_output. destruct files; [done|].
  by rewrite (result_lines_titles s s').
Qed.

(** The turns on lines that hold a term each, on an index whose files all
    have a title: the loop reaches the line after them. *)
Lemma do_searches_turns pre : forall s out,
  wf_store s -> titles_cover s ->
  Forall (fun line => Str.split (Str.lower line) <> []) pre ->
  exists s' out',
    frame s s' /\
    forall rest,
      do_searches (pre ++ rest) (s, out) = do_searches rest (s', out').
Proof.
  induction pre as [|line pre IH]; intros s out Hwf Hc Hpre.
  - exists s, out. split; [apply frame_refl | done].
  - apply Forall_cons in Hpre as [Hline Hpre].
    destruct (query_round_run line s (out ++ [prompt]) Hwf Hc Hline)
      as (r & s1 & _ & Hf1 & _ & Hround).
    destruct (IH s1 (out ++ [prompt] ++
                       round_output s1 (Str.lower line) (deref s1 r)))
      as (s' & out' & Hf' & Hrest).
    + by eapply frame_wf.
    + by eapply frame_cover.
    + done.
    + exists s', out'. split; [by eapply frame_trans|].
      intros rest. cbn [app]. rewrite do_searches_cons, io_bind_run, write_run.
      rewrite Hround, <- app_assoc. apply Hrest.
Qed.

End Turns.

(** * Further properties *)

(** ** Words and terms *)

(** X1: the words that [make_list_of_words] returns are not empty and hold
    no whitespace. *)
Theorem make_list_of_words_words line word :
  word ∈ make_list_of_words line -> word <> EmptyString /\ no_space word.
Proof. rewrite make_list_of_words_eq. apply split_words. Qed.

Lemma make_list_of_words_words_witness :
  "ball" ∈ make_list_of_words "  apple   ball " /\
  "ball" <> EmptyString /\ no_space "ball".
Proof.
  assert ("ball" ∈ make_list_of_words "  apple   ball ") as Hin.
  { apply (bool_decide_unpack _). vm_compute. exact I. }
  split; [exact Hin|].
  exact (make_list_of_words_words "  apple   ball " "ball" Hin).
Defined.

(** X2: the call of [strip] in [make_list_of_words] changes nothing: the
    words of a line are those of [split] alone, and stripping the line first
    leaves them as they are. *)
Theorem make_list_of_words_strip line :
  make_list_of_words line = Str.split line /\
  make_list_of_words (Str.strip line) = make_list_of_words line.
Proof.
  split; [apply make_list_of_words_eq|].
  rewrite !make_list_of_words_eq. unfold Str.split, Str.strip.
  by rewrite chars_of_chars, split_go_strip.
Qed.

(** X3: the term that [clean_word] makes of a word of a line is in normal
    form: [clean_word], [lower] and the stripping of punctuation leave it
    as it is, and it holds no whitespace. *)
Theorem clean_word_normal line word :
  word ∈ make_list_of_words line ->
  clean_word (clean_word word) = clean_word word /\
  Str.lower (clean_word word) = clean_word word /\
  Str.strip_punctuation (clean_word word) = clean_word word /\
  no_space (clean_word word).
Proof.
  rewrite make_list_of_words_eq. intros [_ Hsp]%split_words.
  by apply clean_word_fixed.
Qed.

Lemma clean_word_normal_witness :
  "(Don't!)" ∈ make_list_of_words "He said: (Don't!) twice" /\
  clean_word (clean_word "(Don't!)") = clean_word "(Don't!)" /\
  Str.lower (clean_word "(Don't!)") = clean_word "(Don't!)" /\
  Str.strip_punctuation (clean_word "(Don't!)") = clean_word "(Don't!)" /\
  no_space (clean_word "(Don't!)").
Proof.
  assert ("(Don't!)" ∈ make_list_of_words "He said: (Don't!) twice") as Hin.
  { apply (bool_decide_unpack _). vm_compute. exact I. }
  split; [exact Hin|].
  exact (clean_word_normal "He said: (Don't!) twice" "(Don't!)" Hin).
Defined.

(** X4: [clean_word] does not see the case of its argument. *)
Theorem clean_word_ignores_case word :
  clean_word (Str.lower word) = clean_word word.
Proof.
  unfold clean_word. cbv zeta.
  by rewrite <- lower_strip, lower_idemp.
Qed.

(** ** The index that [create_index] builds *)

(** X5: after a call of [create_index] that returns, from a store whose
    index is sound for the files (the empty one is), a file is in the list
    of a term exactly when it is one of [filenames] and the term occurs
    in it. *)
Theorem create_index_index fs filenames s term file :
  index_sound fs filenames s ->
  (create_index fs filenames s).1 = Return tt ->
  (exists l, index (create_index fs filenames s).2 !! term = Some l /\
             file ∈ deref (create_index fs filenames s).2 l) <->
  file ∈ filenames /\ occurs fs term file.
Proof. intros Hs Hret. by apply create_index_has_iff. Qed.

Lemma create_index_index_witness :
  let filenames := ["test1.txt"; "test2.txt"] in
  index_sound doctest_fs filenames empty_store /\
  (create_index doctest_fs filenames empty_store).1 = Return tt /\
  ((exists l,
      index (create_index doctest_fs filenames empty_store).2 !! "ball"
        = Some l /\
      "test2.txt" ∈ deref (create_index doctest_fs filenames empty_store).2 l)
   <-> "test2.txt" ∈ filenames /\ occurs doctest_fs "ball" "test2.txt").
Proof.
  intros filenames. split; [apply empty_store_sound|].
  split; [by vm_compute|].
  apply (create_index_index doctest_fs filenames empty_store).
  - apply empty_store_sound.
  - by vm_compute.
Defined.

(** X6: a query on the index that [create_index] has built returns exactly
    the files of [filenames] in which every term of the query occurs. *)
Theorem search_after_create_index fs filenames s0 s query :
  index_sound fs filenames s0 ->
  create_index fs filenames s0 = (Return tt, s) ->
  Str.split query <> [] ->
  exists r s',
    search query s = (Return r, s') /\
    forall file,
      file ∈ deref s' r <->
      file ∈ filenames /\
      forall term, term ∈ Str.split query -> occurs fs term file.
Proof.
  intros Hs0 Hrun Hne.
  assert (index_sound fs filenames s) as Hs.
  { pose proof (create_index_keeps_sound fs filenames s0 Hs0) as H.
    by rewrite Hrun in H. }
  assert (forall term file,
            has s term file <-> file ∈ filenames /\ occurs fs term file)
    as Hhas.
  { intros term file.
    pose proof (create_index_has_iff fs filenames s0 term file Hs0) as H.
    rewrite Hrun in H. by apply H. }
  destruct (search_run s (proj1 Hs) query Hne) as (r & s' & Hsearch & _ & Hc).
  exists r, s'. split; [done|]. intros file.
  rewrite Hc, search_content_elem by done. split.
  - intros Hall. split.
    + destruct (Str.split query) as [|w ws] eqn:Hw; [done|].
      destruct (Hall w) as (v & Hv & Hin); [left|].
      apply (Hhas w file). unfold entry in Hv.
      destruct (index s !! w) as [l|] eqn:Hl; [|done].
      exists l. split; [done|]. simpl in Hv. by injection Hv as <-.
    + intros term Hterm. destruct (Hall term Hterm) as (v & Hv & Hin).
      apply (Hhas term file). unfold entry in Hv.
      destruct (index s !! term) as [l|] eqn:Hl; [|done].
      exists l. split; [done|]. simpl in Hv. by injection Hv as <-.
  - intros [Hf Hall] term Hterm.
    destruct (proj2 (Hhas term file) (conj Hf (Hall term Hterm)))
      as (l & Hl & Hin).
    exists (deref s l). unfold entry. by rewrite Hl.
Qed.

Lemma search_after_create_index_witness :
  let filenames := ["test1.txt"; "test2.txt"] in
  let s := (create_index doctest_fs filenames empty_store).2 in
  index_sound doctest_fs filenames empty_store /\
  create_index doctest_fs filenames empty_store = (Return tt, s) /\
  Str.split "apple carrot" <> [] /\
  exists r s',
    search "apple carrot" s = (Return r, s') /\
    forall file,
      file ∈ deref s' r <->
      file ∈ filenames /\
      forall term, term ∈ Str.split "apple carrot" ->
        occurs doctest_fs term file.
Proof.
  intros filenames s. split; [apply empty_store_sound|].
  split; [by vm_compute|]. split; [by vm_compute|].
  apply (search_after_create_index doctest_fs filenames empty_store s).
  - apply empty_store_sound.
  - by vm_compute.
  - by vm_compute.
Defined.

(** X7: [create_index] keeps the keys of [index] in normal form: none is
    empty, and [clean_word] leaves each as it is. *)
Theorem create_index_keys_clean fs filenames s :
  index_keys_clean s -> index_keys_clean (create_index fs filenames s).2.
Proof.
  revert s. apply (create_index_invariant fs index_keys_clean).
  - intros file first rest _ _ s Hs. exact Hs.
  - intros file term _ Ho s Hs. destruct (occurs_clean fs term file Ho).
    destruct (index s !! term) as [l|] eqn:Hl.
    + rewrite (add_term_present term file s l Hl). simpl. by case_decide.
    + rewrite (add_term_absent term file s Hl). simpl.
      by apply map_Forall_insert_2.
Qed.

Lemma create_index_keys_clean_witness :
  let filenames := ["test1.txt"; "none.txt"; "test2.txt"] in
  index_keys_clean two_term_store /\
  index_keys_clean (create_index doctest_fs filenames two_term_store).2.
Proof.
  intros filenames.
  assert (index_keys_clean two_term_store) as H.
  { apply (bool_decide_unpack _). vm_compute. exact I. }
  split; [exact H|].
  exact (create_index_keys_clean doctest_fs filenames two_term_store H).
Defined.

(** X8: [create_index] keeps every term of [index] with a file at least:
    no list of the index is empty. *)
Theorem create_index_lists_nonempty fs filenames s :
  index_lists_nonempty s ->
  index_lists_nonempty (create_index fs filenames s).2.
Proof.
  revert s. apply (create_index_invariant fs index_lists_nonempty).
  - intros file first rest _ _ s Hs. exact Hs.
  - intros file term _ _ s Hs.
    destruct (index s !! term) as [l|] eqn:Hl.
    + rewrite (add_term_present term file s l Hl). simpl.
      case_decide as Hin; [done|].
      intros term' l' Hl'. simpl in Hl' |- *.
      destruct (decide (l = l')) as [<-|Hne].
      * rewrite deref_alter_eq.
        pose proof (Hs term l Hl) as Hv. simpl in Hv. unfold deref in Hv.
        destruct (lists s !! l) as [v|]; simpl in *; [by destruct v | done].
      * rewrite deref_alter_ne by done. by apply (Hs term').
    + rewrite (add_term_absent term file s Hl). simpl.
      intros term' l' Hl'. simpl in Hl' |- *. unfold deref. simpl.
      destruct (decide (term = term')) as [<-|Hne].
      * rewrite lookup_insert_eq in Hl'. injection Hl' as <-.
        by rewrite list_lookup_middle.
      * rewrite lookup_insert_ne in Hl' by done.
        pose proof (Hs term' l' Hl') as Hv. simpl in Hv. unfold deref in Hv.
        destruct (lists s !! l') as [v|] eqn:Hlook; [|done].
        rewrite lookup_app_l by (by eapply lookup_lt_Some).
        by rewrite Hlook.
Qed.

Lemma create_index_lists_nonempty_witness :
  let filenames := ["test1.txt"; "none.txt"; "test2.txt"] in
  index_lists_nonempty two_term_store /\
  index_lists_nonempty (create_index doctest_fs filenames two_term_store).2.
Proof.
  intros filenames.
  assert (index_lists_nonempty two_term_store) as H.
  { apply (bool_decide_unpack _). vm_compute. exact I. }
  split; [exact H|].
  exact (create_index_lists_nonempty doctest_fs filenames two_term_store H).
Defined.

(** X9: [create_index] keeps every title of [file_titles] the first line of
    its file without the last character of that line. *)
Theorem create_index_titles_sound fs filenames s :
  titles_sound fs s -> titles_sound fs (create_index fs filenames s).2.
Proof.
  revert s. apply (create_index_invariant fs (titles_sound fs)).
  - intros file first rest _ Hd s Hs f t Hlook. simpl in Hlook.
    destruct (decide (file = f)) as [<-|Hne].
    + rewrite lookup_insert_eq in Hlook. injection Hlook as <-.
      by exists first, rest.
    + rewrite lookup_insert_ne in Hlook by done. by apply Hs.
  - intros file term _ _ s Hs f t. rewrite add_term_file_titles. apply Hs.
Qed.

Lemma create_index_titles_sound_witness :
  let filenames := ["test1.txt"; "test2.txt"] in
  titles_sound doctest_fs empty_store /\
  titles_sound doctest_fs (create_index doctest_fs filenames empty_store).2.
Proof.
  intros filenames.
  assert (titles_sound doctest_fs empty_store) as H.
  { intros f t Hlook. by destruct (lookup_empty_Some (M := gmap string) f t). }
  split; [exact H|].
  exact (create_index_titles_sound doctest_fs filenames empty_store H).
Defined.

(** ** When [create_index] raises *)


(** X11: indexing the files of two lists in one call is indexing the first
    list and then, if that call returns, the second one from the store it
    leaves. *)
Theorem create_index_app fs filenames1 filenames2 s :
  create_index fs (filenames1 ++ filenames2) s =
    match create_index fs filenames1 s with
    | (Return _, s') => create_index fs filenames2 s'
    | (Raise e, s') => (Raise e, s')
    end.
Proof. unfold create_index. apply for_each_app_run. Qed.

(** X12: at a file that cannot be read, [create_index] stops: it raises,
    what the files before it have put into the store stays, and no file
    after it is looked at. *)
Theorem create_index_stops fs pre bad post s :
  document fs bad = None ->
  (exists e, (create_index fs (pre ++ bad :: post) s).1 = Raise e) /\
  (create_index fs (pre ++ bad :: post) s).2 = (create_index fs pre s).2.
Proof.
  intros Hd. unfold create_index at 1 2. rewrite for_each_app_run.
  fold (create_index fs pre s).
  destruct (create_index fs pre s) as [[[]|e] s1]; [|by eauto].
  fold (create_index fs (bad :: post) s1). rewrite create_index_cons.
  destruct (create_index_one_raises fs bad Hd) as [e ->]. by eauto.
Qed.

Lemma create_index_stops_witness :
  document doctest_fs "none.txt" = None /\
  (exists e, (create_index doctest_fs
                (["test1.txt"] ++ "none.txt" :: ["test2.txt"])
                empty_store).1 = Raise e) /\
  (create_index doctest_fs (["test1.txt"] ++ "none.txt" :: ["test2.txt"])
     empty_store).2 =
  (create_index doctest_fs ["test1.txt"] empty_store).2.
Proof.
  split; [reflexivity|].
  apply (create_index_stops doctest_fs ["test1.txt"] "none.txt"
           ["test2.txt"] empty_store).
  reflexivity.
Defined.

(** X13: naming once more, at the end, a file that [filenames] names
    already changes nothing of what [create_index] does. *)
Theorem create_index_again fs filenames file s :
  wf_store s -> file ∈ filenames ->
  create_index fs (filenames ++ [file]) s = create_index fs filenames s.
Proof.
  intros Hwf Hin. unfold create_index at 1. rewrite for_each_app_run.
  fold (create_index fs filenames s). fold (create_index fs [file]).
  pose proof (create_index_settles fs filenames s Hwf) as Hset.
  destruct (create_index fs filenames s) as [[[]|e] s1] eqn:Hrun; [|done].
  destruct (Hset eq_refl file Hin) as (first & rest & Hd & Hs).
  by apply (create_index_one_noop fs file first rest).
Qed.

Lemma create_index_again_witness :
  wf_store two_term_store /\ "test2.txt" ∈ ["test1.txt"; "test2.txt"] /\
  create_index doctest_fs (["test1.txt"; "test2.txt"] ++ ["test2.txt"])
    two_term_store =
  create_index doctest_fs ["test1.txt"; "test2.txt"] two_term_store.
Proof.
  assert ("test2.txt" ∈ ["test1.txt"; "test2.txt"]) as Hin.
  { apply (bool_decide_unpack _). vm_compute. exact I. }
  split; [exact two_term_store_wf|]. split; [exact Hin|].
  exact (create_index_again doctest_fs ["test1.txt"; "test2.txt"]
           "test2.txt" two_term_store two_term_store_wf Hin).
Defined.

(** ** Queries *)

(** X14: on an index whose lists are free of duplicates, [search] returns
    no file twice. *)
Theorem search_no_duplicates s query r s' :
  wf_store s -> index_dup_free s ->
  search query s = (Return r, s') -> NoDup (deref s' r).
Proof.
  intros Hwf Hdf Hrun.
  destruct (Str.split query) as [|w ws] eqn:Hw.
  { by rewrite (search_no_term s query Hw) in Hrun. }
  destruct (search_run s Hwf query) as (r1 & s1 & Hrun1 & _ & Hc).
  { by rewrite Hw. }
  rewrite Hrun in Hrun1. injection Hrun1 as <- <-.
  rewrite Hc. by apply search_content_NoDup.
Qed.

Lemma search_no_duplicates_witness :
  let r := 3 in
  let s' := (search "ball apple" two_term_store).2 in
  wf_store two_term_store /\ index_dup_free two_term_store /\
  search "ball apple" two_term_store = (Return r, s') /\
  NoDup (deref s' r).
Proof.
  intros r s'.
  assert (search "ball apple" two_term_store = (Return r, s')) as Hrun.
  { by vm_compute. }
  split; [exact two_term_store_wf|].
  split; [exact two_term_store_dup_free|]. split; [exact Hrun|].
  exact (search_no_duplicates two_term_store "ball apple" r s'
           two_term_store_wf two_term_store_dup_free Hrun).
Defined.

(** X15: a query with a term that is no key of [index] returns the empty
    list, wherever the term stands in the query. *)
Theorem search_unknown_term s query term :
  wf_store s -> term ∈ Str.split query -> index s !! term = None ->
  exists r s', search query s = (Return r, s') /\ deref s' r = [].
Proof.
  intros Hwf Hin Hnone.
  destruct (search_run s Hwf query) as (r & s' & Hrun & _ & Hc).
  { intros Hw. rewrite Hw in Hin. by apply elem_of_nil in Hin. }
  exists r, s'. split; [done|]. rewrite Hc.
  apply (search_content_unknown s _ term); [done|].
  unfold entry. by rewrite Hnone.
Qed.

Lemma search_unknown_term_witness :
  wf_store two_term_store /\ "nope" ∈ Str.split "apple nope ball" /\
  index two_term_store !! "nope" = None /\
  exists r s',
    search "apple nope ball" two_term_store = (Return r, s') /\
    deref s' r = [].
Proof.
  assert ("nope" ∈ Str.split "apple nope ball") as Hin.
  { apply (bool_decide_unpack _). vm_compute. exact I. }
  split; [exact two_term_store_wf|]. split; [exact Hin|].
  split; [reflexivity|].
  exact (search_unknown_term two_term_store "apple nope ball" "nope"
           two_term_store_wf Hin eq_refl).
Defined.

(** X16: the files that [search] returns stand in the order in which the
    list of the first term of the query has them. *)
Theorem search_order s query first rest l :
  wf_store s -> Str.split query = first :: rest ->
  index s !! first = Some l ->
  exists r s',
    search query s = (Return r, s') /\ deref s' r `sublist_of` deref s l.
Proof.
  intros Hwf Hw Hl.
  destruct (search_run s Hwf query) as (r & s' & Hrun & _ & Hc).
  { by rewrite Hw. }
  exists r, s'. split; [done|]. rewrite Hc, Hw.
  pose proof (search_content_sublist s first rest) as Hsub.
  unfold entry in Hsub. by rewrite Hl in Hsub.
Qed.

Lemma search_order_witness :
  wf_store two_term_store /\
  Str.split "ball apple" = "ball" :: ["apple"] /\
  index two_term_store !! "ball" = Some 1 /\
  exists r s',
    search "ball apple" two_term_store = (Return r, s') /\
    deref s' r `sublist_of` deref two_term_store 1.
Proof.
  split; [exact two_term_store_wf|]. split; [reflexivity|].
  split; [reflexivity|].
  exact (search_order two_term_store "ball apple" "ball" ["apple"] 1
           two_term_store_wf eq_refl eq_refl).
Defined.

(** X17: the list that [search] returns is a new object: it did not exist
    before the call, and no term of [index] refers to it. *)
Theorem search_returns_new_list s query r s' :
  search query s = (Return r, s') ->
  lists s !! r = None /\
  (wf_store s -> forall term, index s' !! term <> Some r).
Proof.
  intros Hrun.
  destruct (search_above (length (lists s)) query s) as [Hu Hr]; [done|].
  rewrite Hrun in Hu, Hr. simpl in Hu, Hr.
  pose proof (Hr r eq_refl) as Hge. split.
  - by apply lookup_ge_None_2.
  - intros Hwf term Hterm. destruct Hu as (Hi & _). rewrite Hi in Hterm.
    pose proof (Hwf term r Hterm) as Hlt. simpl in Hlt. lia.
Qed.

Lemma search_returns_new_list_witness :
  let r := 2 in
  let s' := (search "apple" two_term_store).2 in
  search "apple" two_term_store = (Return r, s') /\
  lists two_term_store !! r = None /\
  (wf_store two_term_store -> forall term, index s' !! term <> Some r).
Proof.
  intros r s'.
  assert (search "apple" two_term_store = (Return r, s')) as Hrun.
  { by vm_compute. }
  split; [exact Hrun|].
  exact (search_returns_new_list two_term_store "apple" r s' Hrun).
Defined.

(** X18: a file is among the results of a query exactly when it is among
    the results of each of its terms, taken alone as a query. *)
Theorem search_term_by_term s query :
  wf_store s -> Str.split query <> [] ->
  exists r s',
    search query s = (Return r, s') /\
    forall file,
      file ∈ deref s' r <->
      forall term, term ∈ Str.split query ->
        exists rt st,
          search term s = (Return rt, st) /\ file ∈ deref st rt.
Proof.
  intros Hwf Hne.
  destruct (search_run s Hwf query Hne) as (r & s' & Hrun & _ & Hc).
  exists r, s'. split; [done|]. intros file.
  rewrite Hc, search_content_elem by done.
  assert (forall term, term ∈ Str.split query ->
            exists rt st, search term s = (Return rt, st) /\
                          deref st rt = default [] (entry s term)) as Hone.
  { intros term [Hterm Hsp]%split_words.
    destruct (search_run s Hwf term) as (rt & st & Hrt & _ & Hct).
    { by rewrite (split_word term Hterm Hsp). }
    exists rt, st. split; [done|].
    by rewrite Hct, (split_word term Hterm Hsp). }
  split.
  - intros Hall term Hterm. destruct (Hall term Hterm) as (v & Hv & Hin).
    destruct (Hone term Hterm) as (rt & st & Hrt & Hct).
    exists rt, st. split; [done|]. by rewrite Hct, Hv.
  - intros Hall term Hterm.
    destruct (Hall term Hterm) as (rt & st & Hrt & Hin).
    destruct (Hone term Hterm) as (rt' & st' & Hrt' & Hct).
    rewrite Hrt in Hrt'. injection Hrt' as <- <-. rewrite Hct in Hin.
    destruct (entry s term) as [v|]; [by exists v|].
    by apply elem_of_nil in Hin.
Qed.

Lemma search_term_by_term_witness :
  wf_store two_term_store /\ Str.split "ball  apple" <> [] /\
  exists r s',
    search "ball  apple" two_term_store = (Return r, s') /\
    forall file,
      file ∈ deref s' r <->
      forall term, term ∈ Str.split "ball  apple" ->
        exists rt st,
          search term two_term_store = (Return rt, st) /\
          file ∈ deref st rt.
Proof.
  assert (Str.split "ball  apple" <> []) as Hne by (by vm_compute).
  split; [exact two_term_store_wf|]. split; [exact Hne|].
  exact (search_term_by_term two_term_store "ball  apple"
           two_term_store_wf Hne).
Defined.

(** X19: when [list1] holds no document twice, [find_intersection] returns
    the documents of [list1] that [list2] holds, in a new list that it adds
    to the store; it changes nothing else. *)
Theorem find_intersection_filter s list1 list2 a b :
  lists s !! list1 = Some a -> lists s !! list2 = Some b -> NoDup a ->
  find_intersection list1 list2 s =
    (Return (length (lists s)),
     with_new_list s (filter (fun x => x ∈ b) a)).
Proof.
  intros Ha Hb Hnd.
  rewrite find_intersection_run by (by eapply lookup_lt_Some).
  unfold deref. rewrite Ha, Hb. simpl. unfold intersection_of.
  by rewrite (intersection_from_filter [] a b).
Qed.

Lemma find_intersection_filter_witness :
  lists two_term_store !! 1 = Some ["test1.txt"; "test2.txt"] /\
  lists two_term_store !! 0 = Some ["test1.txt"] /\
  NoDup ["test1.txt"; "test2.txt"] /\
  find_intersection 1 0 two_term_store =
    (Return (length (lists two_term_store)),
     with_new_list two_term_store
       (filter (fun x => x ∈ ["test1.txt"]) ["test1.txt"; "test2.txt"])).
Proof.
  assert (NoDup ["test1.txt"; "test2.txt"]) as Hnd.
  { apply (bool_decide_unpack _). vm_compute. exact I. }
  split; [reflexivity|]. split; [reflexivity|]. split; [exact Hnd|].
  exact (find_intersection_filter two_term_store 1 0
           ["test1.txt"; "test2.txt"] ["test1.txt"] eq_refl eq_refl Hnd).
Defined.

(** ** The files of a directory *)

(** X20: [textfiles_in_dir] returns one path for each entry of the directory
    that ends with [.txt], in the order of the entries, and each path ends
    with its entry: the paths end with [.txt] too. *)
Theorem textfiles_in_dir_paths listdir directory entries :
  listdir directory = Some entries ->
  exists paths,
    textfiles_in_dir listdir directory = Return paths /\
    Forall2 (fun path entry => str_endswith path entry = true) paths
      (filter (fun f => str_endswith f ".txt" = true) entries) /\
    Forall (fun path => str_endswith path ".txt" = true) paths.
Proof.
  intros Hl. unfold textfiles_in_dir. rewrite Hl, textfiles_loop.
  eexists. split; [done|]. simpl.
  set (txt := filter (fun f => str_endswith f ".txt" = true) entries).
  assert (Forall (fun f => str_endswith f ".txt" = true) txt) as Htxt.
  { apply Forall_forall. intros f Hf. unfold txt in Hf.
    by apply list_elem_of_filter in Hf as [Hf _]. }
  clearbody txt. induction Htxt as [|f txt Hf Htxt [IH1 IH2]]; [done|].
  rewrite fmap_cons.
  assert (str_endswith (path_join directory f) f = true) as Hsuf.
  { apply bool_decide_eq_true_2, path_join_suffix. }
  split; constructor; try done.
  unfold str_endswith in *.
  apply bool_decide_eq_true in Hf. apply bool_decide_eq_true in Hsuf.
  apply bool_decide_eq_true. by etrans.
Qed.

Lemma textfiles_in_dir_paths_witness :
  let listdir := fun _ : string => Some ["a.txt"; "b.md"; "c.txt.bak"; "d.txt"] in
  listdir "docs" = Some ["a.txt"; "b.md"; "c.txt.bak"; "d.txt"] /\
  exists paths,
    textfiles_in_dir listdir "docs" = Return paths /\
    Forall2 (fun path entry => str_endswith path entry = true) paths
      (filter (fun f => str_endswith f ".txt" = true)
              ["a.txt"; "b.md"; "c.txt.bak"; "d.txt"]) /\
    Forall (fun path => str_endswith path ".txt" = true) paths.
Proof.
  intros listdir. split; [reflexivity|].
  exact (textfiles_in_dir_paths listdir "docs"
           ["a.txt"; "b.md"; "c.txt.bak"; "d.txt"] eq_refl).
Defined.

(** X21: when the entries of the directory are distinct and none starts
    with a slash, the paths that [textfiles_in_dir] returns are distinct:
    [create_index] reads no file twice. *)
Theorem textfiles_in_dir_distinct listdir directory entries :
  listdir directory = Some entries ->
  NoDup entries ->
  Forall (fun entry => str_startswith entry "/" = false) entries ->
  exists paths,
    textfiles_in_dir listdir directory = Return paths /\ NoDup paths.
Proof.
  intros Hl Hnd Hrel. unfold textfiles_in_dir. rewrite Hl, textfiles_loop.
  eexists. split; [done|]. simpl.
  apply NoDup_fmap_2_strong; [|by apply NoDup_filter].
  intros e1 e2 [_ H1]%list_elem_of_filter [_ H2]%list_elem_of_filter Heq.
  rewrite Forall_forall in Hrel.
  destruct (path_join_relative directory e1 (Hrel e1 H1)) as [a' Ha'].
  apply (f_equal Str.chars) in Heq.
  rewrite (Ha' e1), (Ha' e2) in Heq by auto.
  apply app_inv_head in Heq. by apply chars_inj.
Qed.

Lemma textfiles_in_dir_distinct_witness :
  let listdir := fun _ : string => Some ["a.txt"; "b.md"; "d.txt"] in
  listdir "docs" = Some ["a.txt"; "b.md"; "d.txt"] /\
  NoDup ["a.txt"; "b.md"; "d.txt"] /\
  Forall (fun entry => str_startswith entry "/" = false)
         ["a.txt"; "b.md"; "d.txt"] /\
  exists paths,
    textfiles_in_dir listdir "docs" = Return paths /\ NoDup paths.
Proof.
  intros listdir.
  assert (NoDup ["a.txt"; "b.md"; "d.txt"]) as Hnd.
  { apply (bool_decide_unpack _). vm_compute. exact I. }
  assert (Forall (fun entry => str_startswith entry "/" = false)
                 ["a.txt"; "b.md"; "d.txt"]) as Hrel.
  { apply (bool_decide_unpack _). vm_compute. exact I. }
  split; [reflexivity|]. split; [exact Hnd|]. split; [exact Hrel|].
  exact (textfiles_in_dir_distinct listdir "docs" ["a.txt"; "b.md"; "d.txt"]
           eq_refl Hnd Hrel).
Defined.

(** ** The loop of queries *)

(** X22: [do_searches] changes neither dictionary and no list object that
    exists when it is called, whatever is typed and however it ends. *)
Theorem do_searches_frame typed s out :
  frame s (do_searches typed (s, out)).2.1.
Proof.
  destruct (do_searches_above (length (lists s)) typed s out)
    as (Hi & Ht & Hl & _); [done|].
  split_and!; [done | done |]. by rewrite Hl, firstn_all.
Qed.

(** X23: [do_searches] stops at the first empty line: what is typed after
    it is not read. *)
Theorem do_searches_stops pre post w :
  do_searches (pre ++ EmptyString :: post) w =
  do_searches (pre ++ [EmptyString]) w.
Proof.
  revert w. induction pre as [|line pre IH]; intros w; [done|].
  cbn [app]. rewrite !do_searches_cons. apply io_bind_ext. intros _ w'.
  by apply query_round_ext.
Qed.

(** X24: a line of whitespace only is not taken for the empty query: it
    reaches [search], and [do_searches] ends with [IndexError] after the
    prompt. *)
Theorem do_searches_blank_line line typed s out :
  Str.lower line <> EmptyString -> Str.split (Str.lower line) = [] ->
  do_searches (line :: typed) (s, out) =
    (Raised (Exn IndexError), (with_new_list s [], out ++ [prompt])).
Proof.
  intros Hne Hw. rewrite do_searches_cons, io_bind_run, write_run.
  unfold query_round. cbv zeta. rewrite bool_decide_eq_false_2 by done.
  by rewrite io_bind_run, lift_run, (search_no_term s _ Hw).
Qed.

Lemma do_searches_blank_line_witness :
  Str.lower "   " <> EmptyString /\ Str.split (Str.lower "   ") = [] /\
  do_searches ("   " :: ["apple"]) (two_term_store, []) =
    (Raised (Exn IndexError),
     (with_new_list two_term_store [], [] ++ [prompt])).
Proof.
  assert (Str.lower "   " <> EmptyString) as Hne by (by vm_compute).
  split; [exact Hne|]. split; [reflexivity|].
  exact (do_searches_blank_line "   " ["apple"] two_term_store [] Hne eq_refl).
Defined.

(** X25: when every file of the index has a title and every line typed
    before the first empty one holds a term, [do_searches] returns. *)
Theorem do_searches_returns pre post s out :
  wf_store s -> titles_cover s ->
  Forall (fun line => Str.split (Str.lower line) <> []) pre ->
  (do_searches (pre ++ EmptyString :: post) (s, out)).1 = Returned tt.
Proof.
  intros Hwf Hc Hpre.
  destruct (do_searches_turns pre s out Hwf Hc Hpre) as (s' & out' & _ & Hrest).
  by rewrite Hrest.
Qed.

Lemma doctest_store_wf : wf_store doctest_store.
Proof. apply (bool_decide_unpack _). vm_compute. exact I. Qed.

Lemma doctest_store_cover : titles_cover doctest_store.
Proof. apply (bool_decide_unpack _). vm_compute. exact I. Qed.

Lemma do_searches_returns_witness :
  let pre := ["Apple"; "ball CARROT"; "nope"] in
  wf_store doctest_store /\ titles_cover doctest_store /\
  Forall (fun line => Str.split (Str.lower line) <> []) pre /\
  (do_searches (pre ++ EmptyString :: ["dog"]) (doctest_store, [])).1
    = Returned tt.
Proof.
  intros pre.
  assert (Forall (fun line => Str.split (Str.lower line) <> []) pre) as Hpre.
  { apply (bool_decide_unpack _). vm_compute. exact I. }
  split; [exact doctest_store_wf|]. split; [exact doctest_store_cover|].
  split; [exact Hpre|].
  exact (do_searches_returns pre ["dog"] doctest_store []
           doctest_store_wf doctest_store_cover Hpre).
Defined.

(** X26: when every file of the index has a title and every line typed
    holds a term, so that none is empty, [do_searches] ends with [EOFError]
    at the end of the input. *)
Theorem do_searches_end_of_input typed s out :
  wf_store s -> titles_cover s ->
  Forall (fun line => Str.split (Str.lower line) <> []) typed ->
  (do_searches typed (s, out)).1 = Raised EOFError.
Proof.
  intros Hwf Hc Hall.
  destruct (do_searches_turns typed s out Hwf Hc Hall)
    as (s' & out' & _ & Hrest).
  specialize (Hrest []). rewrite app_nil_r in Hrest. by rewrite Hrest.
Qed.

Lemma do_searches_end_of_input_witness :
  let typed := ["Apple"; "ball CARROT"] in
  wf_store doctest_store /\ titles_cover doctest_store /\
  Forall (fun line => Str.split (Str.lower line) <> []) typed /\
  (do_searches typed (doctest_store, [])).1 = Raised EOFError.
Proof.
  intros typed.
  assert (Forall (fun line => Str.split (Str.lower line) <> []) typed)
    as Hall.
  { apply (bool_decide_unpack _). vm_compute. exact I. }
  split; [exact doctest_store_wf|]. split; [exact doctest_store_cover|].
  split; [exact Hall|].
  exact (do_searches_end_of_input typed doctest_store []
           doctest_store_wf doctest_store_cover Hall).
Defined.

(** X27: [do_searches] does not see the case of what is typed: it does on
    the lines what it does on the lines in lower case, and echoes the
    queries in lower case. *)
Theorem do_searches_ignores_case typed w :
  do_searches (Str.lower <$> typed) w = do_searches typed w.
Proof.
  revert w. induction typed as [|line typed IH]; intros w; [done|].
  rewrite fmap_cons, !do_searches_cons. apply io_bind_ext. intros _ w'.
  rewrite query_round_lower. by apply query_round_ext.
Qed.

(** X28: what [do_searches] writes for one query: the prompt, the header
    with the query in lower case, the results of [search] numbered from 1
    with their titles, or the line that says there is none, and the prompt
    again. *)
Theorem do_searches_one_query line s out :
  wf_store s -> titles_cover s -> Str.split (Str.lower line) <> [] ->
  exists s',
    do_searches [line; EmptyString] (s, out) =
      (Returned tt,
       (s', out ++ [prompt]
              ++ round_output s (Str.lower line)
                   (search_content s (Str.split (Str.lower line)))
              ++ [prompt])).
Proof.
  intros Hwf Hc Hne.
  destruct (query_round_run line s (out ++ [prompt]) Hwf Hc Hne)
    as (r & s' & _ & Hf & Hr & Hround).
  exists s'. rewrite do_searches_cons, io_bind_run, write_run, Hround.
  rewrite Hr, (round_output_titles s s') by apply Hf.
  rewrite do_searches_cons, io_bind_run, write_run.
  unfold query_round. cbv zeta. simpl bool_decide. cbv iota.
  unfold io_ret. by rewrite <- !app_assoc.
Qed.

Lemma do_searches_one_query_witness :
  wf_store doctest_store /\ titles_cover doctest_store /\
  Str.split (Str.lower "Ball") <> [] /\
  exists s',
    do_searches ["Ball"; EmptyString] (doctest_store, []) =
      (Returned tt,
       (s', [] ++ [prompt]
              ++ round_output doctest_store (Str.lower "Ball")
                   (search_content doctest_store
                      (Str.split (Str.lower "Ball")))
              ++ [prompt])).
Proof.
  assert (Str.split (Str.lower "Ball") <> []) as Hne by (by vm_compute).
  split; [exact doctest_store_wf|]. split; [exact doctest_store_cover|].
  split; [exact Hne|].
  exact (do_searches_one_query "Ball" doctest_store []
           doctest_store_wf doctest_store_cover Hne).
Defined.
